(** * Bookmark AI organizer: folder taxonomy engine and classification orchestrator

    A shallow embedding of [src/utils/bookmark-manager.ts] (class
    [BookmarkManager]) and [src/utils/llm-classifier.ts] (class
    [LlmClassifier]), followed by the properties of the specification
    that concern them.

    Conventions.
    - A JavaScript string is the list of its Unicode code points, as the
      [/u] regular expressions and the string iterator see it.  [length]
      of the source ([String.prototype.length]) counts UTF-16 code units
      and is [js_length] here.
    - The Unicode tables of the JavaScript runtime (case mapping, general
      categories, compatibility decomposition) are a parameter
      [UnicodeData]; [BasicLatin] is the instance used to evaluate the
      functions on concrete labels.
    - [chrome.bookmarks] is a flat store of nodes in document order.
    - [async] functions are state-passing functions; a rejected promise is
      [None] (store) or an [Err] value (classifier). *)

From Stdlib Require Import NArith QArith String Ascii List DecimalString.
From stdpp Require Import base option list gmap sets.
Import ListNotations.
Local Open Scope N_scope.
#[local] Set Warnings "-register-all,-clear-no-such-hyp".

(** ** JavaScript strings *)

Abbreviation jstring := (list N).

(** An ASCII literal as a JavaScript string. *)
Definition str (s : string) : jstring :=
  map N_of_ascii (list_ascii_of_string s).

(** [String.prototype.length]: code points above the BMP take two units. *)
Definition js_length (s : jstring) : N :=
  fold_right (fun c n => (if c <? 65536 then 1 else 2) + n) 0 s.

(** ECMAScript [WhiteSpace] and [LineTerminator]: the characters removed by
    [trim] and matched by [\s]. *)
Definition is_space (c : N) : bool :=
  ((9 <=? c) && (c <=? 13)) || (c =? 32) || (c =? 160) || (c =? 5760)
  || ((8192 <=? c) && (c <=? 8202)) || (c =? 8232) || (c =? 8233)
  || (c =? 8239) || (c =? 8287) || (c =? 12288) || (c =? 65279).

Definition is_slash (c : N) : bool := c =? 47.

Fixpoint drop_while (p : N -> bool) (s : jstring) : jstring :=
  match s with
  | [] => []
  | c :: r => if p c then drop_while p r else s
  end.

Definition drop_end_while (p : N -> bool) (s : jstring) : jstring :=
  rev (drop_while p (rev s)).

(** [String.prototype.trim]. *)
Definition trim (s : jstring) : jstring :=
  drop_end_while is_space (drop_while is_space s).

(** [s.startsWith(p)]. *)
Fixpoint startsWith (s p : jstring) {struct p} : bool :=
  match p, s with
  | [], _ => true
  | _ :: _, [] => false
  | a :: p', c :: s' => (c =? a) && startsWith s' p'
  end.

(** [s.includes(p)]. *)
Fixpoint includes (s p : jstring) : bool :=
  startsWith s p ||
  match s with
  | [] => false
  | _ :: s' => includes s' p
  end.

(** [s.replace(/\s+/g, ' ')]: every maximal run of white space becomes one
    space; [in_run] tells that the previous character belonged to a run. *)
Fixpoint collapse_from (in_run : bool) (s : jstring) : jstring :=
  match s with
  | [] => []
  | c :: r =>
      if is_space c
      then (if in_run then collapse_from true r else 32 :: collapse_from true r)
      else c :: collapse_from false r
  end.

Definition collapseSpaces (s : jstring) : jstring := collapse_from false s.

(** The tables of the JavaScript runtime that the source relies on. *)
Record UnicodeData := {
  toLowerCase : jstring -> jstring;      (* String.prototype.toLowerCase *)
  isLetterOrNumber : N -> bool;          (* \p{L} or \p{N} *)
  nfkd : jstring -> jstring              (* normalize('NFKD') *)
}.

(** ** BookmarkManager *)

Module BookmarkManager.

Section Normalizer.
Variable U : UnicodeData.

(** [normalizeFolderName], the chain of seven calls in source order. *)
Definition normalizeFolderName (name : jstring) : jstring :=
  let s1 := toLowerCase U name in
  let s2 := trim s1 in
  let s3 := drop_while is_slash s2 in                 (* /^\/+/ *)
  let s4 := drop_end_while is_slash s3 in             (* /\/+$/ *)
  let s5 := collapseSpaces s4 in                      (* /\s+/g *)
  let s6 := drop_while (fun c => negb (isLetterOrNumber U c)) s5 in
  nfkd U s6.

(** The last [filter] of [sanitizeFolderPath], with the set [seen] that
    its callback captures and grows threaded through. *)
Fixpoint filterSeen (seen : gset jstring) (path : list jstring)
  : list jstring :=
  match path with
  | [] => []
  | p :: rest =>
      let key := normalizeFolderName p in
      if decide (key ∈ seen) then filterSeen seen rest
      else p :: filterSeen ({[key]} ∪ seen) rest
  end.

(** [sanitizeFolderPath]: map, filter, filter. *)
Definition sanitizeFolderPath (path : list jstring) : list jstring :=
  let trimmed := map trim path in
  let nonEmpty := filter (fun p => 0 < js_length p) trimmed in
  filterSeen ∅ nonEmpty.

(** The title given to a folder that [ensureFolderPath] creates:
    [rawName.trim().replace(/^\/+|\/+$/g, '')]. *)
Definition folderTitle (rawName : jstring) : jstring :=
  drop_end_while is_slash (drop_while is_slash (trim rawName)).
End Normalizer.

(** *** The bookmark store ([chrome.bookmarks])

    Nodes are kept in document order, so that the children of a folder
    are the nodes naming it as parent, in order.  Identifiers are the
    decimal numerals Chrome assigns; the numeral ['1'] is the number [1]. *)

Record StoreNode := {
  id : N;
  parentId : option N;
  title : jstring;
  url : option jstring
}.

Abbreviation Store := (list StoreNode).

(** Truthiness of [node.url]: defined and not the empty string.  Chrome
    stores no empty url, so the nodes it answers [false] for are the
    folders. *)
Definition has_url (u : option jstring) : bool :=
  match u with
  | Some (_ :: _) => true
  | _ => false
  end.

Definition lookupNode (s : Store) (i : N) : option StoreNode :=
  find (fun n => id n =? i) s.

Definition childrenOf (s : Store) (i : N) : list StoreNode :=
  filter (fun n => parentId n = Some i) s.

(** [chrome.bookmarks.getChildren(id)]; rejects on an unknown id. *)
Definition getChildren (s : Store) (i : N) : option (list StoreNode) :=
  match lookupNode s i with
  | Some _ => Some (childrenOf s i)
  | None => None
  end.

(** The identifier of the next node: above every identifier in use. *)
Definition freshId (s : Store) : N :=
  N.succ (fold_right (fun n m => N.max (id n) m) 0 s).

(** [chrome.bookmarks.create({parentId, title})]: a new folder, last among
    the children of its parent; rejects when the parent is not a folder
    of the store. *)
Definition create (s : Store) (parent : N) (t : jstring)
  : option (StoreNode * Store) :=
  match lookupNode s parent with
  | Some p =>
      if has_url (url p) then None
      else
        let n := {| id := freshId s; parentId := Some parent;
                    title := t; url := None |} in
        Some (n, s ++ [n])
  | None => None
  end.

(** [chrome.bookmarks.remove(id)]: removes a bookmark or an empty folder;
    rejects on an unknown id and on a folder that has children. *)
Definition remove (s : Store) (i : N) : option Store :=
  match lookupNode s i with
  | Some _ =>
      match childrenOf s i with
      | [] => Some (filter (fun n => id n ≠ i) s)
      | _ :: _ => None
      end
  | None => None
  end.

Section Resolver.
Variable U : UnicodeData.

(** The callback of [children.find] in [findFolder]. *)
Definition isWanted (target : jstring) (child : StoreNode) : bool :=
  negb (has_url (url child)) &&
  bool_decide (normalizeFolderName U (title child) = target).

(** [findFolder]: the first child that is a folder with the wanted key. *)
Definition findFolder (s : Store) (parent : N) (name : jstring)
  : option (option StoreNode) :=
  children ← getChildren s parent;
  let target := normalizeFolderName U name in
  Some (find (isWanted target) children).

(** The [for] loop of [ensureFolderPath], with its two variables
    [currentId] and [previousNormalized]. *)
Fixpoint ensureLoop (path : list jstring) (currentId : N)
    (previousNormalized : option jstring) (s : Store)
  : option (N * Store) :=
  match path with
  | [] => Some (currentId, s)
  | rawName :: rest =>
      let normalized := normalizeFolderName U rawName in
      if decide (previousNormalized = Some normalized)
      then ensureLoop rest currentId previousNormalized s
      else
        existingFolder ← findFolder s currentId rawName;
        match existingFolder with
        | Some f => ensureLoop rest (id f) (Some normalized) s
        | None =>
            '(newFolder, s') ← create s currentId (folderTitle rawName);
            ensureLoop rest (id newFolder) (Some normalized) s'
        end
  end.

Definition ensureFolderPath (path : list jstring) (s : Store)
  : option (N * Store) :=
  ensureLoop path 1 None s.
End Resolver.

(** *** The empty-folder sweep *)

(** A node of the snapshot returned by [chrome.bookmarks.getTree()]. *)
Inductive BookmarkTreeNode :=
  TreeNode (t_id : N) (t_title : jstring) (t_url : option jstring)
           (t_children : option (list BookmarkTreeNode)).

(** The subtree below a store node; a folder carries its children, a
    bookmark carries none.  [fuel] bounds the depth. *)
Fixpoint subTree (fuel : nat) (s : Store) (n : StoreNode)
  : BookmarkTreeNode :=
  TreeNode (id n) (title n) (url n)
    (if has_url (url n) then None
     else Some match fuel with
               | O => []
               | S fuel' => map (subTree fuel' s) (childrenOf s (id n))
               end).

(** [chrome.bookmarks.getTree()]: the nodes without a parent, each with
    its subtree.  The node count is fuel enough for a store without
    cycles ([getTree_fuel_enough] below). *)
Definition getTree (s : Store) : list BookmarkTreeNode :=
  map (subTree (length s) s) (filter (fun n => parentId n = None) s).

(** The state the sweep threads: the live store, the counter
    [removedCount], and the identifiers [chrome.bookmarks.remove] has
    been called with, oldest first. *)
Record Sweep := {
  store : Store;
  removedCount : nat;
  removeCalls : list N
}.

Definition systemIds : list N := [0; 1; 2; 3].

(** [systemIds.includes(node.id)]. *)
Definition isSystemId (i : N) : bool := bool_decide (i ∈ systemIds).

(** The [try]/[catch] around [chrome.bookmarks.remove(node.id)]. *)
Definition tryRemove (i : N) (st : Sweep) : bool * Sweep :=
  match remove (store st) i with
  | Some s' =>
      (true, {| store := s'; removedCount := S (removedCount st);
                removeCalls := removeCalls st ++ [i] |})
  | None =>
      (false, {| store := store st; removedCount := removedCount st;
                 removeCalls := removeCalls st ++ [i] |})
  end.

(** [traverseAndRemove]; the inner [fix] is the [for ... of children]. *)
Fixpoint traverseAndRemove (node : BookmarkTreeNode) (st : Sweep)
  : bool * Sweep :=
  let 'TreeNode nid _ nurl nchildren := node in
  if has_url nurl then (false, st)
  else
    let '(hasChildren, st1) :=
      match nchildren with
      | Some ((_ :: _) as children) =>
          (fix each (children : list BookmarkTreeNode) (hasChildren : bool)
               (st : Sweep) : bool * Sweep :=
             match children with
             | [] => (hasChildren, st)
             | child :: more =>
                 let '(childRemovedOrEmpty, st') :=
                   traverseAndRemove child st in
                 each more
                   (if childRemovedOrEmpty then hasChildren else true) st'
             end) children false st
      | _ => (false, st)
      end in
    if negb hasChildren && negb (isSystemId nid)
    then tryRemove nid st1
    else (negb hasChildren, st1).

(** [removeEmptyFolders]: the final state holds the returned count. *)
Definition removeEmptyFolders (s : Store) : Sweep :=
  let tree := getTree s in
  let st0 := {| store := s; removedCount := 0; removeCalls := [] |} in
  match tree with
  | root :: _ => snd (traverseAndRemove root st0)
  | [] => st0
  end.

(** The [for ... of children] loop of [traverseAndRemove] on its own, and
    the part of a visit that precedes the decision to delete. *)
Fixpoint eachChild (children : list BookmarkTreeNode) (hasChildren : bool)
    (st : Sweep) : bool * Sweep :=
  match children with
  | [] => (hasChildren, st)
  | child :: more =>
      let '(childRemovedOrEmpty, st') := traverseAndRemove child st in
      eachChild more (if childRemovedOrEmpty then hasChildren else true) st'
  end.

Definition visitChildren (c : option (list BookmarkTreeNode)) (st : Sweep)
  : bool * Sweep :=
  match c with
  | Some ((_ :: _) as children) => eachChild children false st
  | _ => (false, st)
  end.

(** The identifiers of the nodes of a snapshot that carry no url. *)
Fixpoint folderIds (n : BookmarkTreeNode) : list N :=
  let 'TreeNode i _ u c := n in
  (if has_url u then [] else [i]) ++
  match c with
  | Some children => children ≫= folderIds
  | None => []
  end.

(** How a part of the sweep may change the state: it calls [remove] on
    identifiers drawn from [ids], none of them protected, and the store
    loses at most the nodes with those identifiers, one per count. *)
Definition sweeps (ids : list N) (st st' : Sweep) : Prop :=
  exists new,
    removeCalls st' = removeCalls st ++ new
    /\ (forall i, i ∈ new -> i ∈ ids /\ isSystemId i = false)
    /\ (forall n, n ∈ store st -> id n ∉ new -> n ∈ store st')
    /\ (forall n, n ∈ store st' -> n ∈ store st)
    /\ (NoDup (id <$> store st) ->
        NoDup (id <$> store st')
        /\ (length (store st') + removedCount st'
            = length (store st) + removedCount st)%nat).

(** A store is ranked by [rank] when every child ranks below its parent;
    such a store has no cycle. *)
Definition ranked (rank : StoreNode -> nat) (s : Store) : Prop :=
  forall n c, n ∈ s -> c ∈ childrenOf s (id n) -> (rank c < rank n)%nat.

(** The store holds a folder under the identifier [i]. *)
Definition folderAt (s : Store) (i : N) : Prop :=
  exists x, lookupNode s i = Some x /\ has_url (url x) = false.

(** Induction on a snapshot with the hypothesis for every child. *)
Section TreeInduction.
Variable P : BookmarkTreeNode -> Prop.
Hypothesis Hnode : forall i t u c,
  Forall P (default [] c) -> P (TreeNode i t u c).

Fixpoint tree_induction (n : BookmarkTreeNode) : P n :=
  let 'TreeNode i t u c := n in
  Hnode i t u c
    match c return Forall P (default [] c) with
    | None => List.Forall_nil P
    | Some l =>
        (fix all (l : list BookmarkTreeNode) : Forall P l :=
           match l with
           | [] => List.Forall_nil P
           | x :: r => List.Forall_cons P x r (tree_induction x) (all r)
           end) l
    end.
End TreeInduction.

(** *** The wording of the specification for [sanitize]

    "trims each segment, drops empty segments, then drops any segment
    whose canonical key has already appeared earlier in the path (first
    occurrence wins)".  [earlier] holds the segments already passed,
    kept or not. *)
Fixpoint dropRepeated (U : UnicodeData) (earlier path : list jstring)
  : list jstring :=
  match path with
  | [] => []
  | p :: rest =>
      if decide (normalizeFolderName U p ∈ normalizeFolderName U <$> earlier)
      then dropRepeated U (earlier ++ [p]) rest
      else p :: dropRepeated U (earlier ++ [p]) rest
  end.

Definition sanitize_spec (U : UnicodeData) (path : list jstring)
  : list jstring :=
  dropRepeated U [] (filter (fun p => p ≠ []) (trim <$> path)).

(** Two labels name the same folder when their canonical keys agree. *)
Definition sameFolder (U : UnicodeData) (a b : jstring) : Prop :=
  normalizeFolderName U a = normalizeFolderName U b.

(** A decoration: code points that are neither letters nor numbers, the
    characters that the last [replace] of [normalizeFolderName] strips
    from the front of a label. *)
Definition decoration (U : UnicodeData) (d : jstring) : Prop :=
  Forall (fun c => isLetterOrNumber U c = false) d.

(** What the tables of the runtime give: a letter or a number is neither
    white space nor the slash. *)
Definition lettersAreInk (U : UnicodeData) : Prop :=
  forall c, isLetterOrNumber U c = true ->
    is_space c = false /\ is_slash c = false.

(** A table that lower-cases character by character, with [f], leaving
    white space white space and letters and numbers letters and numbers,
    as the runtime does but for a few context-dependent code points. *)
Definition lowersByCharacter (U : UnicodeData) (f : N -> N) : Prop :=
  (forall s, toLowerCase U s = map f s)
  /\ (forall c, is_space (f c) = is_space c)
  /\ (forall c, isLetterOrNumber U (f c) = isLetterOrNumber U c).

(** A run of white space: one character or more, all matched by [\s]. *)
Definition spaceRun (ws : jstring) : Prop :=
  ws ≠ [] /\ Forall (fun c => is_space c = true) ws.

(** A segment whose stored title has the canonical key of the segment. *)
Definition keyStable (U : UnicodeData) (rawName : jstring) : Prop :=
  normalizeFolderName U (folderTitle rawName) = normalizeFolderName U rawName.

(** *** Reading the tree *)

(** The [traverse] of [getAllBookmarks] on one node: the node itself when
    it has a url, then whatever its children yield. *)
Fixpoint collectBookmarks (n : BookmarkTreeNode) : list BookmarkTreeNode :=
  let 'TreeNode _ _ u c := n in
  (if has_url u then [n] else []) ++
  match c with
  | Some children => children ≫= collectBookmarks
  | None => []
  end.

(** [getAllBookmarks]: [traverse(tree)] over every root of the snapshot. *)
Definition getAllBookmarks (s : Store) : list BookmarkTreeNode :=
  getTree s ≫= collectBookmarks.

(** [chrome.bookmarks.getSubTree(id)]: the node with its subtree, in a
    one-element array; rejects on an unknown id. *)
Definition getSubTree (s : Store) (i : N) : option (list BookmarkTreeNode) :=
  (fun n => [subTree (length s) s n]) <$> lookupNode s i.

(** The [traverse] of [getExistingFolders] on one node: nothing for a
    node with a url; for a folder its path, then the paths below it.  An
    empty [parentPath] is falsy, so nothing is put before the title. *)
Fixpoint folderPaths (parentPath : jstring) (n : BookmarkTreeNode)
  : list jstring :=
  let 'TreeNode _ t u c := n in
  if has_url u then []
  else
    let currentPath :=
      match parentPath with
      | [] => t
      | _ :: _ => parentPath ++ 47 :: t
      end in
    currentPath ::
    match c with
    | Some children => children ≫= folderPaths currentPath
    | None => []
    end.

(** [getExistingFolders]: the folders below ['1']; [[]] when the subtree
    cannot be read. *)
Definition getExistingFolders (s : Store) : list jstring :=
  match getSubTree s 1 with
  | Some (TreeNode _ _ _ (Some children) :: _) => children ≫= folderPaths []
  | _ => []
  end.

(** The identifiers of the folders of a snapshot that hold no bookmark at
    any depth. *)
Fixpoint emptyFolderIds (n : BookmarkTreeNode) : list N :=
  let 'TreeNode i _ u c := n in
  (if has_url u then []
   else match collectBookmarks n with
        | [] => [i]
        | _ :: _ => []
        end) ++
  match c with
  | Some children => children ≫= emptyFolderIds
  | None => []
  end.

(** What a visit does, seen from the snapshot alone: the identifiers it
    calls [remove] with are among [ids], and it answers [true] only if
    the snapshots [t] hold no bookmark. *)
Definition spares (t : list BookmarkTreeNode) (ids : list N)
    (st : Sweep) (r : bool * Sweep) : Prop :=
  exists new, removeCalls r.2 = removeCalls st ++ new
    /\ Forall (fun i => i ∈ ids) new
    /\ (r.1 = true -> t ≫= collectBookmarks = []).

(** *** Placing a bookmark *)

(** The identifiers of a node and of the nodes below it. *)
Fixpoint idsBelow (fuel : nat) (s : Store) (i : N) : list N :=
  i :: match fuel with
       | O => []
       | S fuel' => childrenOf s i ≫= (fun c => idsBelow fuel' s (id c))
       end.

(** [chrome.bookmarks.move(id, {parentId})]: the node becomes the last
    child of the new parent; rejects on an unknown node, on a parent that
    is not a folder of the store, and on a parent that is the node itself
    or lies below it. *)
Definition move (s : Store) (i parent : N) : option (StoreNode * Store) :=
  match lookupNode s i, lookupNode s parent with
  | Some n, Some p =>
      if has_url (url p) then None
      else if bool_decide (parent ∈ idsBelow (length s) s i) then None
      else
        let n' := {| id := id n; parentId := Some parent;
                     title := title n; url := url n |} in
        Some (n', filter (fun m => id m ≠ i) s ++ [n'])
  | _, _ => None
  end.

Section Placement.
Variable U : UnicodeData.

(** Whether Chrome accepts a string as the url of a bookmark. *)
Variable validUrl : jstring -> bool.

(** [chrome.bookmarks.create({parentId, title, url})]: a new bookmark,
    last among the children of its parent; rejects when the parent is not
    a folder of the store or the url is not valid. *)
Definition createLink (s : Store) (parent : N) (t u : jstring)
  : option (StoreNode * Store) :=
  match lookupNode s parent with
  | Some p =>
      if has_url (url p) then None
      else if validUrl u
      then
        let n := {| id := freshId s; parentId := Some parent;
                    title := t; url := Some u |} in
        Some (n, s ++ [n])
      else None
  | None => None
  end.

(** [ensureLoop] once more, keeping the store a rejected call leaves
    behind: the folders created before the rejection stay. *)
Fixpoint ensureLoopK (path : list jstring) (currentId : N)
    (previousNormalized : option jstring) (s : Store)
  : option N * Store :=
  match path with
  | [] => (Some currentId, s)
  | rawName :: rest =>
      let normalized := normalizeFolderName U rawName in
      if decide (previousNormalized = Some normalized)
      then ensureLoopK rest currentId previousNormalized s
      else
        match findFolder U s currentId rawName with
        | None => (None, s)
        | Some (Some f) => ensureLoopK rest (id f) (Some normalized) s
        | Some None =>
            match create s currentId (folderTitle rawName) with
            | None => (None, s)
            | Some (newFolder, s') =>
                ensureLoopK rest (id newFolder) (Some normalized) s'
            end
        end
  end.

Definition ensureFolderPathK (path : list jstring) (s : Store)
  : option N * Store :=
  ensureLoopK path 1 None s.

(** [createBookmark]: the created node, or [None] when a call rejects,
    and the store left behind. *)
Definition createBookmark (u t : jstring) (folderPath : list jstring)
    (s : Store) : option StoreNode * Store :=
  let cleanPath := sanitizeFolderPath U folderPath in
  match ensureFolderPathK cleanPath s with
  | (Some folderId, s1) =>
      match createLink s1 folderId t u with
      | Some (n, s2) => (Some n, s2)
      | None => (None, s1)
      end
  | (None, s1) => (None, s1)
  end.

(** [moveBookmark]. *)
Definition moveBookmark (bookmarkId : N) (folderPath : list jstring)
    (s : Store) : option StoreNode * Store :=
  let cleanPath := sanitizeFolderPath U folderPath in
  match ensureFolderPathK cleanPath s with
  | (Some folderId, s1) =>
      match move s1 bookmarkId folderId with
      | Some (n, s2) => (Some n, s2)
      | None => (None, s1)
      end
  | (None, s1) => (None, s1)
  end.
End Placement.

(** The key that [previousNormalized] holds after the loop of
    [ensureFolderPath] has passed [path]. *)
Definition keyAfter (U : UnicodeData) (path : list jstring)
    (previousNormalized : option jstring) : option jstring :=
  match last path with
  | Some rawName => Some (normalizeFolderName U rawName)
  | None => previousNormalized
  end.

(** A label that neither starts nor ends with a slash. *)
Definition noSlashEnds (t : jstring) : Prop :=
  head t ≠ Some 47 /\ last t ≠ Some 47.

(** A plain segment: trimmed, it neither starts nor ends with a slash,
    and lower-casing it commutes with trimming it, as lower-casing does
    in the runtime, where it leaves white space alone. *)
Definition plainSegment (U : UnicodeData) (rawName : jstring) : Prop :=
  noSlashEnds (trim rawName)
  /\ toLowerCase U (trim rawName) = trim (toLowerCase U rawName).

(** Every node with a parent names a folder of the store as parent. *)
Definition closed (s : Store) : Prop :=
  forall n p, n ∈ s -> parentId n = Some p -> folderAt s p.

(** What the loop of [ensureFolderPath] may add to the store: a folder
    titled after a segment of the path. *)
Definition madeFor (path : list jstring) (n : StoreNode) : Prop :=
  url n = None /\ exists rawName, rawName ∈ path /\ title n = folderTitle rawName.

(** The listed path [p] belongs to the folder [i] of the store: it is the
    title of that folder, or ends with a slash and that title. *)
Definition pathOfFolder (s : Store) (p : jstring) (i : N) : Prop :=
  exists m, m ∈ s /\ id m = i /\ has_url (url m) = false
    /\ (p = title m \/ exists pre, p = pre ++ 47 :: title m).

End BookmarkManager.

(** ** LlmClassifier *)

Module LlmClassifier.

(** An [AIProvider] object.  A field is [None] when the object lacks it,
    which happens for the spread of a value found on [Object.prototype]. *)
Record AIProvider := {
  name : option jstring;
  baseURL : option jstring;
  model : option jstring
}.

Definition provider (n u m : string) : AIProvider :=
  {| name := Some (str n); baseURL := Some (str u); model := Some (str m) |}.

Definition openai := provider "OpenAI" "https://api.openai.com/v1" "gpt-3.5-turbo".
Definition moonshot :=
  provider "Moonshot (Kimi)" "https://api.moonshot.ai/v1" "kimi-k2-0711-preview".
Definition grok := provider "Grok" "https://api.x.ai/v1" "grok-beta".
Definition openrouter :=
  provider "OpenRouter" "https://openrouter.ai/api/v1" "openai/gpt-4o-mini".
Definition groq :=
  provider "Groq" "https://api.groq.com/openai/v1" "llama-3.3-70b-versatile".
Definition copilot := provider "GitHub Copilot" "https://api.githubcopilot.com" "gpt-4o".

(** The own properties of [this.providers]. *)
Definition providers : list (jstring * AIProvider) :=
  [ (str "openai", openai); (str "moonshot", moonshot); (str "grok", grok);
    (str "openrouter", openrouter); (str "groq", groq);
    (str "copilot", copilot) ].

(** The property names every object literal inherits. *)
Definition inheritedKeys : list jstring :=
  map str [ "constructor"; "hasOwnProperty"; "isPrototypeOf";
            "propertyIsEnumerable"; "toLocaleString"; "toString"; "valueOf";
            "__defineGetter__"; "__defineSetter__"; "__lookupGetter__";
            "__lookupSetter__"; "__proto__" ]%string.

(** [{ ...this.providers[key] }] when [this.providers[key]] is truthy: an
    own entry is copied, an inherited function or object spreads to the
    empty object; [None] when the property is undefined. *)
Definition providersGet (key : jstring) : option AIProvider :=
  match find (fun e => bool_decide (fst e = key)) providers with
  | Some e => Some (snd e)
  | None =>
      if bool_decide (key ∈ inheritedKeys)
      then Some {| name := None; baseURL := None; model := None |}
      else None
  end.

(** [detectProvider]: the [if]/[else if] cascade, top to bottom. *)
Definition detectProvider (apiKey : jstring) : AIProvider :=
  if startsWith apiKey (str "gho_") || startsWith apiKey (str "github_pat_")
  then copilot
  else if startsWith apiKey (str "gsk_")
  then groq
  else if startsWith apiKey (str "sk-") && negb (includes apiKey (str "kimi"))
          && negb (includes apiKey (str "or-v1"))
  then openai
  else if startsWith apiKey (str "sk-or-v1-")
          || includes apiKey (str "openrouter")
  then openrouter
  else if includes apiKey (str "kimi") || (40 <? js_length apiKey)
  then moonshot
  else if includes apiKey (str "grok") || startsWith apiKey (str "xai-")
  then grok
  else openrouter.

(** A value produced by [JSON.parse]. *)
Inductive JsValue :=
| JNull
| JBool (b : bool)
| JNumber (q : Q)
| JString (s : jstring)
| JArray (items : list JsValue)
| JObject (fields : list (jstring * JsValue)).

(** Truthiness of a parsed value. *)
Definition truthy (v : JsValue) : bool :=
  match v with
  | JNull => false
  | JBool b => b
  | JNumber q => negb (Qeq_bool q 0)
  | JString s => match s with [] => false | _ => true end
  | JArray _ | JObject _ => true
  end.

(** Truthiness of a string that may be [null] or [undefined]. *)
Definition truthyStr (o : option jstring) : bool :=
  match o with
  | Some (_ :: _) => true
  | _ => false
  end.

(** A thrown value: an [OpenAI.APIError] with its [status] (absent on a
    connection error), an [OpenAI.OpenAIError] of the client that is no
    [APIError], another [Error], or a value that is no [Error]. *)
Inductive Thrown :=
| APIError (status : option N) (message : jstring)
| OpenAIError (message : jstring)
| Error (message : jstring)
| NonError.

(** The interpolated parts of the prompt; the fixed instruction text
    around them is the same in every request. *)
Record Prompt := {
  p_url : jstring;
  p_title : jstring;
  p_existingFoldersList : jstring
}.

(** One [client.chat.completions.create] call with the client it goes
    through. *)
Record Request := {
  r_apiKey : jstring;
  r_baseURL : option jstring;
  r_copilotHeaders : bool;
  r_model : option jstring;
  r_prompt : Prompt;
  r_max_tokens : N;
  r_temperature : Q
}.

(** What [attemptClassification] does with one request: it returns
    [completion.choices[0].message.content], possibly [null], or throws. *)
Inductive Outcome :=
| Content (c : option jstring)
| Throws (e : Thrown).

(** The collaborators of one [classifyUrl] call. *)
Record Env := {
  (** [SecurityManager.getApiKey()]. *)
  getApiKey : option jstring;
  (** [getProviderPreference()]; [None] when it rejects. *)
  getProviderPreference : option (option jstring);
  (** Whether [getSelectedOpenRouterModel()] rejects. *)
  selectedModelRejects : bool;
  (** [chooseDefaultOpenRouterModel(apiKey)]. *)
  chooseDefaultOpenRouterModel : jstring -> option jstring;
  (** The token [getGitHubCopilotToken] returns; [None] when it returns
      none. *)
  copilotToken : jstring -> option jstring;
  (** What happens when there is no token: [true] when the exchange is
      answered, the answer holds no [token], and [data.token] is returned
      as it is, [undefined]; [false] when [getGitHubCopilotToken]
      throws. *)
  copilotTokenUndefined : jstring -> bool;
  (** The message of the [OpenAIError] that [new OpenAI(clientConfig)]
      throws when [apiKey] is [undefined]. *)
  missingApiKeyMessage : jstring;
  (** The inference endpoint: the outcome of a request, given how many
      requests this call has issued before it. *)
  complete : Request -> nat -> Outcome;
  (** [JSON.parse]: a value, or the message of its [SyntaxError]. *)
  JSON_parse : jstring -> JsValue + jstring;
  (** The message of the [TypeError] for reading a property of [null]. *)
  nullReadMessage : jstring
}.

(** The fields of a [LlmClassifier] instance. *)
Record Fields := {
  apiKey : option jstring;
  providerOverride : option jstring;
  selectedOpenRouterModel : option jstring
}.

(** Modelled from the spec: the persisted model choice that
    [getSelectedOpenRouterModel], [clearSelectedOpenRouterModel] and
    [setSelectedOpenRouterModel] of [./openrouter] read, unset and
    write ("selected-model-for-one-provider-family (string or unset)");
    and the completion requests issued so far. *)
Record World := {
  persistedModel : option jstring;
  requests : list Request
}.

Inductive Result (A : Type) :=
| Ok (a : A)
| Err (e : Thrown).
Arguments Ok {A} a.
Arguments Err {A} e.

(** The decimal numeral of a status code, as a template literal prints it. *)
Definition decimal (n : N) : jstring :=
  str (NilEmpty.string_of_uint (N.to_uint n)).

(** [existingFolders.join('\n')]. *)
Fixpoint join (l : list jstring) : jstring :=
  match l with
  | [] => []
  | [x] => x
  | x :: rest => x ++ 10 :: join rest
  end.

Definition fence_json : jstring := str "```json".
Definition fence : jstring := str "```".

(** The length of the match of [/```json\n?|\n?```/] at the head of [s]. *)
Definition fenceMatch (s : jstring) : option nat :=
  if startsWith s fence_json
  then Some (if startsWith (drop 7 s) [10] then 8%nat else 7%nat)
  else if startsWith s (10 :: fence) then Some 4%nat
  else if startsWith s fence then Some 3%nat
  else None.

(** [s.replace(/```json\n?|\n?```/g, '')]; [skip] counts the characters
    of the current match still to drop. *)
Fixpoint stripFences (skip : nat) (s : jstring) : jstring :=
  match s with
  | [] => []
  | c :: r =>
      match skip with
      | S k => stripFences k r
      | O =>
          match fenceMatch s with
          | Some (S k) => stripFences k r
          | _ => c :: stripFences O r
          end
      end
  end.

(** [parsed.key]: [inl] a message when the read throws (on [null]),
    [inr None] for [undefined]. *)
Definition getProp (nullMsg : jstring) (v : JsValue) (key : jstring)
  : jstring + option JsValue :=
  match v with
  | JNull => inl nullMsg
  | JObject fields =>
      inr (snd <$> find (fun e => bool_decide (fst e = key)) fields)
  | _ => inr None
  end.

(** The value [classifyUrl] resolves to. *)
Record Classification := {
  folderPath : list JsValue;
  tags : JsValue
}.

Section Orchestrator.
Variable E : Env.

(** [loadApiKey]. *)
Definition loadApiKey (self : Fields) : Fields :=
  {| apiKey := trim <$> getApiKey E;
     providerOverride := providerOverride self;
     selectedOpenRouterModel := selectedOpenRouterModel self |}.

(** [loadPreferences]: a rejected read leaves the later fields as they
    were. *)
Definition loadPreferences (self : Fields) (w : World) : Fields :=
  match getProviderPreference E with
  | None => self
  | Some pref =>
      {| apiKey := apiKey self;
         providerOverride := pref;
         selectedOpenRouterModel :=
           if selectedModelRejects E then selectedOpenRouterModel self
           else persistedModel w |}
  end.

(** Lines 123 to 130: the provider object of this call. *)
Definition resolveProvider (self : Fields) (key : jstring) : AIProvider :=
  let baseProvider :=
    match (if truthyStr (providerOverride self)
           then providerOverride self ≫= providersGet else None) with
    | Some p => p
    | None => detectProvider key
    end in
  if bool_decide (name baseProvider = Some (str "OpenRouter"))
     && truthyStr (selectedOpenRouterModel self)
  then {| name := name baseProvider; baseURL := baseURL baseProvider;
          model := selectedOpenRouterModel self |}
  else baseProvider.

Definition isCopilot (p : AIProvider) : bool :=
  bool_decide (name p = Some (str "GitHub Copilot")).

Definition existingFoldersList (existingFolders : list jstring) : jstring :=
  match existingFolders with
  | [] => []
  | _ :: _ =>
      10 :: 10 :: str "**Existing Folders** (Prefer using these if relevant):"
      ++ 10 :: join existingFolders
  end.

(** The request of [attemptClassification] through the client built
    from [clientConfig]. *)
Definition mkRequest (actualApiKey : jstring) (p : AIProvider)
    (prompt : Prompt) : Request :=
  {| r_apiKey := actualApiKey; r_baseURL := baseURL p;
     r_copilotHeaders := isCopilot p; r_model := model p;
     r_prompt := prompt; r_max_tokens := 300; r_temperature := 2 # 10 |}.

(** [attemptClassification] with the model the provider holds now. *)
Definition attemptClassification (actualApiKey : jstring) (p : AIProvider)
    (prompt : Prompt) (w : World) : Outcome * World :=
  let r := mkRequest actualApiKey p prompt in
  (complete E r (length (requests w)),
   {| persistedModel := persistedModel w; requests := requests w ++ [r] |}).

(** [completion.choices[0].message.content || '']. *)
Definition contentOrEmpty (c : option jstring) : jstring :=
  if truthyStr c then default [] c else [].

Definition is404 (e : Thrown) : bool :=
  match e with
  | APIError (Some 404) _ => true
  | _ => false
  end.

(** Lines 280 to 303: the first attempt and the fallback. *)
Definition requestPhase (key actualApiKey : jstring) (p : AIProvider)
    (prompt : Prompt) (w : World) : Result jstring * World :=
  let retried := false in
  match attemptClassification actualApiKey p prompt w with
  | (Content c, w1) => (Ok (contentOrEmpty c), w1)
  | (Throws err, w1) =>
      if bool_decide (name p = Some (str "OpenRouter")) && is404 err
         && negb retried
      then
        let w2 := {| persistedModel := None; requests := requests w1 |} in
        let fallback := chooseDefaultOpenRouterModel E key in
        if truthyStr fallback
        then
          let p' := {| name := name p; baseURL := baseURL p;
                       model := fallback |} in  (* provider.model = fallback *)
          let w3 := {| persistedModel := fallback;
                       requests := requests w2 |} in
          match attemptClassification actualApiKey p' prompt w3 with
          | (Content c, w4) => (Ok (contentOrEmpty c), w4)
          | (Throws err', w4) => (Err err', w4)
          end
        else (Err (Error (str "No fallback OpenRouter model available.")), w2)
      else (Err err, w1)
  end.

(** Lines 305 to 317: from the response text to the returned object. *)
Definition parseResponse (result : jstring) : Result Classification :=
  match result with
  | [] => Err (Error (str "No response content received from AI provider"))
  | _ :: _ =>
      let cleanResult := trim (stripFences 0 result) in
      match JSON_parse E cleanResult with
      | inr syntaxError => Err (Error syntaxError)
      | inl parsed =>
          match getProp (nullReadMessage E) parsed (str "folderPath") with
          | inl typeError => Err (Error typeError)
          | inr (Some (JArray items)) =>
              match getProp (nullReadMessage E) parsed (str "tags") with
              | inl typeError => Err (Error typeError)
              | inr t =>
                  Ok {| folderPath := take 3 items;
                        tags := match t with
                                | Some v => if truthy v then v else JArray []
                                | None => JArray []
                                end |}
              end
          | inr _ =>
              Err (Error (str "Invalid response format: missing folderPath"))
          end
      end
  end.

(** Lines 318 to 333: what the outer [catch] rethrows. *)
Definition translate (error : Thrown) : Thrown :=
  match error with
  | APIError status message =>
      if bool_decide (status = Some 401)
      then Error (str "Invalid API key. Please check your credentials.")
      else if bool_decide (status = Some 429)
      then Error (str "Rate limit exceeded. Please try again later.")
      else if bool_decide (status = Some 403)
      then Error (str "API access forbidden. Check your API key permissions.")
      else Error (str "API Error (" ++ from_option decimal (str "undefined") status
                  ++ str "): " ++ message)
  | OpenAIError message | Error message =>
      Error (str "Classification failed: " ++ message)
  | NonError => Error (str "Classification failed: Unknown error occurred")
  end.

(** [classifyUrl].  The client is built before the [try]: when the token
    of the Copilot exchange is [undefined], [new OpenAI] throws and its
    error goes out as it is. *)
Definition classifyUrl (self : Fields) (w : World) (url title : jstring)
    (existingFolders : list jstring)
  : Result Classification * Fields * World :=
  let self1 := loadApiKey self in
  match apiKey self1 with
  | None | Some [] =>
      (Err (Error (str "API key not configured. Please save your API key first.")),
       self1, w)
  | Some key =>
      let self2 := loadPreferences self1 w in
      let p := resolveProvider self2 key in
      let token :=
        if isCopilot p then copilotToken E key else Some key in
      match token with
      | None =>
          if copilotTokenUndefined E key
          then (* [new OpenAI(clientConfig)] throws, before the [try] *)
            (Err (OpenAIError (missingApiKeyMessage E)), self2, w)
          else
            (Err (Error (str "Failed to authenticate with GitHub Copilot. Ensure you have Copilot Pro enabled on your account.")),
             self2, w)
      | Some actualApiKey =>
          let prompt := {| p_url := url; p_title := title;
                           p_existingFoldersList :=
                             existingFoldersList existingFolders |} in
          match requestPhase key actualApiKey p prompt w with
          | (Err e, w') => (Err (translate e), self2, w')
          | (Ok result, w') =>
              match parseResponse result with
              | Ok c => (Ok c, self2, w')
              | Err e => (Err (translate e), self2, w')
              end
          end
      end
  end.
End Orchestrator.

(** What [classifyUrl] throws without a credential, and after a 404
    when no other model can be found. *)
Definition notConfigured : Thrown :=
  Error (str "API key not configured. Please save your API key first.").

Definition noFallback : Thrown :=
  Error (str "Classification failed: No fallback OpenRouter model available.").

(** The credential a call hands to the client: the stored key, trimmed,
    or for GitHub Copilot the token it is exchanged for. *)
Definition credentialSent (E : Env) (self : Fields) (w : World)
  : option jstring :=
  key ← trim <$> getApiKey E;
  if isCopilot (resolveProvider (loadPreferences E (loadApiKey E self) w) key)
  then copilotToken E key
  else Some key.

(** An outcome that is an [APIError] with status 404. *)
Definition outcomeIs404 (o : Outcome) : bool :=
  match o with
  | Throws e => is404 e
  | Content _ => false
  end.

(** The secret store holds no credential, or one that is blank. *)
Definition noCredential (E : Env) : Prop :=
  trim <$> getApiKey E = None \/ trim <$> getApiKey E = Some [].

(** The same collaborators around another stored credential. *)
Definition withApiKey (k : option jstring) (E : Env) : Env :=
  {| getApiKey := k;
     getProviderPreference := getProviderPreference E;
     selectedModelRejects := selectedModelRejects E;
     chooseDefaultOpenRouterModel := chooseDefaultOpenRouterModel E;
     copilotToken := copilotToken E;
     copilotTokenUndefined := copilotTokenUndefined E;
     missingApiKeyMessage := missingApiKeyMessage E;
     complete := complete E;
     JSON_parse := JSON_parse E;
     nullReadMessage := nullReadMessage E |}.

(** The provider with another model, as [provider.model = fallback]
    leaves it. *)
Definition withModel (m : option jstring) (p : AIProvider) : AIProvider :=
  {| name := name p; baseURL := baseURL p; model := m |}.

End LlmClassifier.

(** ** BackgroundService *)

Module BackgroundService.
Import BookmarkManager LlmClassifier.

(** A message given to [chrome.runtime.sendMessage].  [ORGANIZE_ERROR] is
    sent when reading the tree rejects, which the store above never
    does. *)
Inductive Message :=
| ORGANIZE_PROGRESS (processed total : nat)
| ORGANIZE_COMPLETE (processed total removedFolders : nat)
| ORGANIZE_ERROR (error : jstring).

(** What a run of the service works on: the bookmark store, the fields
    of [this.classifier] and the world it calls into, and the messages
    sent so far, oldest first. *)
Record Service := {
  bookmarks : Store;
  classifier : Fields;
  world : World;
  sent : list Message
}.

(** What [path.map(p => p.trim())] in [sanitizeFolderPath] needs of the
    [folderPath] of a classification: strings.  On any other value the
    call of [trim] throws, before the store is touched. *)
Definition stringsOf (l : list JsValue) : option (list jstring) :=
  mapM (fun v => match v with JString x => Some x | _ => None end) l.

(** Two stores hold the same bookmarks: every node with a url of the
    first is in the second under its identifier, with its title and
    url. *)
Definition keepsBookmarks (s s' : Store) : Prop :=
  forall m, m ∈ s -> has_url (url m) = true ->
    exists m', m' ∈ s' /\ id m' = id m /\ title m' = title m /\ url m' = url m.

(** The progress messages [first], [first + 1], ... ([n] of them) of a
    batch of [total] bookmarks. *)
Definition progressTo (total first n : nat) : list Message :=
  (fun j => ORGANIZE_PROGRESS j total) <$> seq first n.

Section OrganizeAll.
Variable U : UnicodeData.

(** The collaborators of the classifier during the classification of the
    [k]-th bookmark. *)
Variable envFor : nat -> Env.

(** The body of the [for] loop of [organizeAllBookmarks] for the [k]-th
    bookmark, with its [try] and [catch]: the counter [processed] and the
    state after it.  The pause that follows is not modelled. *)
Definition organizeOne (total k : nat) (existingFolders : list jstring)
    (bookmark : BookmarkTreeNode) (processed : nat) (st : Service)
  : nat * Service :=
  let 'TreeNode bid btitle burl _ := bookmark in
  let '(res, self', w') :=
    classifyUrl (envFor k) (classifier st) (world st)
      (default [] burl) btitle existingFolders in
  let caught (s' : Store) :=
    (processed, {| bookmarks := s'; classifier := self'; world := w';
                   sent := sent st |}) in
  match res with
  | Err _ => caught (bookmarks st)
  | Ok classification =>
      match stringsOf (folderPath classification) with
      | None => caught (bookmarks st)
      | Some path =>
          match moveBookmark U bid path (bookmarks st) with
          | (Some _, s') =>
              (S processed,
               {| bookmarks := s'; classifier := self'; world := w';
                  sent := sent st ++ [ORGANIZE_PROGRESS (S processed) total] |})
          | (None, s') => caught s'
          end
      end
  end.

(** The [for (const bookmark of bookmarks)] loop. *)
Fixpoint organizeEach (total : nat) (existingFolders : list jstring)
    (bs : list BookmarkTreeNode) (k processed : nat) (st : Service)
  : nat * Service :=
  match bs with
  | [] => (processed, st)
  | bookmark :: rest =>
      let '(processed', st') :=
        organizeOne total k existingFolders bookmark processed st in
      organizeEach total existingFolders rest (S k) processed' st'
  end.

(** Whether the body of the loop moves the [k]-th bookmark when it
    starts in the state [st]: the classification returns, its
    [folderPath] holds strings, and [moveBookmark] returns. *)
Definition moves (k : nat) (existingFolders : list jstring)
    (bookmark : BookmarkTreeNode) (st : Service) : bool :=
  let 'TreeNode bid btitle burl _ := bookmark in
  match (classifyUrl (envFor k) (classifier st) (world st)
           (default [] burl) btitle existingFolders).1.1 with
  | Err _ => false
  | Ok classification =>
      match stringsOf (folderPath classification) with
      | None => false
      | Some path =>
          bool_decide (is_Some (moveBookmark U bid path (bookmarks st)).1)
      end
  end.

(** The state in which the loop reaches the [k]-th of the bookmarks
    [bs]; for [k = length bs], the state in which it ends. *)
Definition stateBefore (total : nat) (existingFolders : list jstring)
    (bs : list BookmarkTreeNode) (st : Service) (k : nat) : Service :=
  (organizeEach total existingFolders (take k bs) 0 0 st).2.

(** The places in [bs] of the bookmarks that the loop moves. *)
Definition movedPlaces (total : nat) (existingFolders : list jstring)
    (bs : list BookmarkTreeNode) (st : Service) : list nat :=
  filter (fun k =>
            from_option
              (fun b => moves k existingFolders b
                          (stateBefore total existingFolders bs st k))
              false (bs !! k) = true)
         (seq 0 (length bs)).

(** [organizeAllBookmarks]. *)
Definition organizeAllBookmarks (st : Service) : Service :=
  let bs := getAllBookmarks (bookmarks st) in
  let existingFolders := getExistingFolders (bookmarks st) in
  let total := length bs in
  let '(processed, st1) := organizeEach total existingFolders bs 0 0 st in
  let sw := removeEmptyFolders (bookmarks st1) in
  {| bookmarks := store sw; classifier := classifier st1; world := world st1;
     sent := sent st1
             ++ [ORGANIZE_COMPLETE processed total (removedCount sw)] |}.
End OrganizeAll.

End BackgroundService.

(** Tables that agree with the runtime on Basic Latin.  Code points
    outside Basic Latin are caseless, undecomposable symbols here, which
    is what the emoji and the joiner of the labelled examples are. *)
Definition BasicLatin : UnicodeData := {|
  toLowerCase := map (fun c => if (65 <=? c) && (c <=? 90) then c + 32 else c);
  isLetterOrNumber := fun c =>
    ((48 <=? c) && (c <=? 57)) || ((65 <=? c) && (c <=? 90))
    || ((97 <=? c) && (c <=? 122));
  nfkd := fun s => s
|}.

(** Basic Latin and the ligature U+FB01 LATIN SMALL LIGATURE FI, a
    lower-case letter that NFKD decomposes into "fi". *)
Definition LatinLigature : UnicodeData := {|
  toLowerCase := toLowerCase BasicLatin;
  isLetterOrNumber := fun c => isLetterOrNumber BasicLatin c || (c =? 64257);
  nfkd := fun s => s ≫= (fun c => if c =? 64257 then [102; 105] else [c])
|}.

Import BookmarkManager.

(** ** Stores, labels and collaborators used to evaluate the model *)

Definition folderNode (i : N) (p : option N) (t : string) : StoreNode :=
  {| id := i; parentId := p; title := str t; url := None |}.

Definition linkNode (i p : N) (t u : string) : StoreNode :=
  {| id := i; parentId := Some p; title := str t; url := Some (str u) |}.

(** A new profile: the root and its two containers. *)
Definition emptyProfile : Store :=
  [ folderNode 0 None EmptyString; folderNode 1 (Some 0) "Bookmarks bar";
    folderNode 2 (Some 0) "Other bookmarks" ].

(** The snapshot of the empty bookmarks bar. *)
Definition emptyBar : BookmarkTreeNode :=
  TreeNode 1 (str "Bookmarks bar") None (Some []).

(** A profile with the three containers of Chrome and one bookmark. *)
Definition chromeStore : Store :=
  [ folderNode 0 None EmptyString; folderNode 1 (Some 0) "Bookmarks bar";
    folderNode 2 (Some 0) "Other bookmarks";
    linkNode 5 1 "Rocq" "https://rocq-prover.org/" ].

(** U+1F4BB PERSONAL COMPUTER, U+1F9D1 ADULT, U+200D ZERO WIDTH JOINER. *)
Definition laptop_Technology : jstring := 128187 :: str " Technology".
Definition technologist_technology : jstring :=
  129489 :: 8205 :: 128187 :: str " technology ".

(** The tree of the cascade example: a protected root holding one folder
    that holds one empty folder. *)
Definition nestedStore : Store :=
  [ folderNode 0 None EmptyString; folderNode 7 (Some 0) "B"; folderNode 8 (Some 7) "C" ].

Definition sweepStart (s : Store) : Sweep :=
  {| store := s; removedCount := 0; removeCalls := [] |}.

Import LlmClassifier.

(** A credential with the xAI prefix, 44 characters long. *)
Definition xaiKey : jstring := str "xai-" ++ replicate 40 120.

Definition freshFields : Fields :=
  {| apiKey := None; providerOverride := None;
     selectedOpenRouterModel := None |}.

Definition freshWorld : World := {| persistedModel := None; requests := [] |}.

Definition notFound : Outcome :=
  Throws (APIError (Some 404) (str "No endpoints found"))%string.

(** A response with five path elements and no tags, and a parser that
    knows this one text. *)
Definition fiveLevels : JsValue :=
  JObject [ (str "folderPath",
             JArray (JString ∘ str <$> ["A"; "B"; "C"; "D"; "E"]%string)) ].

Definition quoted (s : string) : jstring := 34 :: str s ++ [34].

Definition fiveLevelsText : jstring :=
  str "```json" ++ 10 :: str "{" ++ quoted "folderPath" ++ str ":["
  ++ quoted "A" ++ str "," ++ quoted "B" ++ str "," ++ quoted "C" ++ str ","
  ++ quoted "D" ++ str "," ++ quoted "E" ++ str "]}" ++ 10 :: str "```".

Definition fiveLevelsJson : jstring :=
  str "{" ++ quoted "folderPath" ++ str ":["
  ++ quoted "A" ++ str "," ++ quoted "B" ++ str "," ++ quoted "C" ++ str ","
  ++ quoted "D" ++ str "," ++ quoted "E" ++ str "]}".

(** OpenRouter by its key prefix; every completion is a 404 and a default
    model can be discovered. *)
Definition alwaysNotFound : Env :=
  {| getApiKey := Some (str "sk-or-v1-0123456789abcdef");
     getProviderPreference := Some None;
     selectedModelRejects := false;
     chooseDefaultOpenRouterModel := fun _ => Some (str "meta-llama/llama-3.1-8b-instruct");
     copilotToken := fun _ => None;
     copilotTokenUndefined := fun _ => false;
     missingApiKeyMessage := str "Missing credentials";
     complete := fun _ _ => notFound;
     JSON_parse := fun _ => inr (str "Unexpected end of JSON input");
     nullReadMessage := str "Cannot read properties of null" |}.

(** OpenRouter again; the first completion answers with the fenced text
    above, which the parser reads once the fences are gone. *)
Definition answersFiveLevels : Env :=
  {| getApiKey := Some (str " sk-or-v1-0123456789abcdef ");
     getProviderPreference := Some None;
     selectedModelRejects := false;
     chooseDefaultOpenRouterModel := fun _ => None;
     copilotToken := fun _ => None;
     copilotTokenUndefined := fun _ => false;
     missingApiKeyMessage := str "Missing credentials";
     complete := fun _ _ => Content (Some fiveLevelsText);
     JSON_parse := fun t =>
       if bool_decide (t = fiveLevelsJson) then inl fiveLevels
       else inr (str "Unexpected token");
     nullReadMessage := str "Cannot read properties of null" |}.

(** A url is taken for valid here when it is not empty. *)
Definition nonEmptyUrl (u : jstring) : bool :=
  match u with
  | [] => false
  | _ :: _ => true
  end.

(** A rank for the profiles above: the root, its containers, the rest. *)
Definition chromeRank (n : StoreNode) : nat :=
  match id n with
  | 0 => 2%nat
  | 1 | 2 => 1%nat
  | _ => 0%nat
  end.

(** A profile with an empty folder left over next to the bookmark. *)
Definition sweepStore : Store :=
  chromeStore ++ [ folderNode 6 (Some 2) "Old" ].

Definition rocqUrl : jstring := str "https://rocq-prover.org/".
Definition rocqTitle : jstring := str "Rocq".
Definition openRouterKey : jstring := str "sk-or-v1-0123456789abcdef".
Definition rocqPrompt : Prompt :=
  {| p_url := rocqUrl; p_title := rocqTitle; p_existingFoldersList := [] |}.

Import BackgroundService.

(** OpenRouter by its key prefix; every completion is refused with 401. *)
Definition unauthorized : Env :=
  {| getApiKey := Some openRouterKey;
     getProviderPreference := Some None;
     selectedModelRejects := false;
     chooseDefaultOpenRouterModel := fun _ => Some (str "meta-llama/llama-3.1-8b-instruct");
     copilotToken := fun _ => None;
     copilotTokenUndefined := fun _ => false;
     missingApiKeyMessage := str "Missing credentials";
     complete := fun _ _ => Throws (APIError (Some 401) (str "No auth credentials found"));
     JSON_parse := fun _ => inr (str "Unexpected end of JSON input");
     nullReadMessage := str "Cannot read properties of null" |}.

(** GitHub Copilot by its key prefix; the token exchange is answered,
    without a token. *)
Definition copilotWithoutToken : Env :=
  {| getApiKey := Some (str "gho_0123456789abcdef");
     getProviderPreference := Some None;
     selectedModelRejects := false;
     chooseDefaultOpenRouterModel := fun _ => None;
     copilotToken := fun _ => None;
     copilotTokenUndefined := fun _ => true;
     missingApiKeyMessage := str "Missing credentials";
     complete := fun _ _ => Content None;
     JSON_parse := fun _ => inr (str "Unexpected end of JSON input");
     nullReadMessage := str "Cannot read properties of null" |}.

(** OpenAI by its key prefix; every completion is a 404. *)
Definition openaiNotFound : Env :=
  withApiKey (Some (str "sk-0123456789abcdef")) alwaysNotFound.

(** A service that has sent nothing, on a store. *)
Definition serviceOn (s : Store) : Service :=
  {| bookmarks := s; classifier := freshFields; world := freshWorld;
     sent := [] |}.

(** A response that files a bookmark under "Proof assistants". *)
Definition proofAssistants : JsValue :=
  JObject [ (str "folderPath", JArray [JString (str "Proof assistants")]);
            (str "tags", JArray [JString (str "rocq")]) ].

Definition answersProofAssistants : Env :=
  {| getApiKey := Some openRouterKey;
     getProviderPreference := Some None;
     selectedModelRejects := false;
     chooseDefaultOpenRouterModel := fun _ => None;
     copilotToken := fun _ => None;
     copilotTokenUndefined := fun _ => false;
     missingApiKeyMessage := str "Missing credentials";
     complete := fun _ _ => Content (Some (str "{}"));
     JSON_parse := fun _ => inl proofAssistants;
     nullReadMessage := str "Cannot read properties of null" |}.

(** * Properties *)

(** ** Strings *)

Lemma js_length_pos (s : jstring) : 0 < js_length s ↔ s ≠ [].
Proof.
  destruct s as [|c r]; simpl.
  - split; [lia | congruence].
  - split; [congruence | intros _]. destruct (c <? 65536); lia.
Qed.

Lemma drop_while_all p (s : jstring) :
  Forall (λ c, p c = true) s → drop_while p s = [].
Proof. induction 1 as [|c s Hc _ IH]; simpl; [done|by rewrite Hc]. Qed.

Lemma trim_whitespace (s : jstring) :
  Forall (λ c, is_space c = true) s → trim s = [].
Proof. intros H. unfold trim. by rewrite (drop_while_all _ _ H). Qed.

Lemma startsWith_inv (p s : jstring) :
  startsWith s p = true → ∃ rest, s = p ++ rest.
Proof.
  revert s. induction p as [|a p IH]; intros s H; [by exists s|].
  destruct s as [|c s]; [done|]. simpl in H.
  apply andb_true_iff in H as [Hc Hs]. apply N.eqb_eq in Hc as ->.
  destruct (IH _ Hs) as [rest ->]. by exists rest.
Qed.

Lemma find_app_Some {A} (p : A → bool) (l1 l2 : list A) x :
  find p l1 = Some x → find p (l1 ++ l2) = Some x.
Proof.
  induction l1 as [|a l1 IH]; simpl; [done|]. destruct (p a); auto.
Qed.

Lemma find_app_None {A} (p : A → bool) (l1 l2 : list A) :
  find p l1 = None → find p (l1 ++ l2) = find p l2.
Proof.
  induction l1 as [|a l1 IH]; simpl; [done|]. destruct (p a); [done|auto].
Qed.

(** ** NameNormalizer and sanitize *)

Lemma slash_not_space c : is_slash c = true → is_space c = false.
Proof. unfold is_slash. intros H. apply N.eqb_eq in H as ->. reflexivity. Qed.

Lemma drop_while_app_stop p (d : jstring) h w :
  p h = false → drop_while p (d ++ h :: w) = drop_while p d ++ h :: w.
Proof.
  intros Hh. induction d as [|a d IH]; simpl; [by rewrite Hh|].
  by destruct (p a).
Qed.

Lemma drop_end_while_app_stop p (l : jstring) c r :
  p c = false → drop_end_while p (l ++ c :: r) = l ++ c :: drop_end_while p r.
Proof.
  intros Hc. unfold drop_end_while.
  rewrite rev_app_distr. simpl. rewrite <- (assoc_L (++)). simpl.
  rewrite (drop_while_app_stop _ _ _ _ Hc).
  rewrite rev_app_distr. simpl. rewrite rev_involutive.
  by rewrite <- (assoc_L (++)).
Qed.

Lemma drop_end_while_snoc p (l : jstring) c :
  drop_end_while p (l ++ [c])
  = if p c then drop_end_while p l else l ++ [c].
Proof.
  unfold drop_end_while. rewrite rev_app_distr. simpl.
  destruct (p c); [done|]. simpl. by rewrite rev_involutive.
Qed.

Lemma drop_while_decoration U p (d : jstring) :
  decoration U d → decoration U (drop_while p d).
Proof.
  induction 1 as [|a d Ha Hd IH]; simpl; [constructor|].
  destruct (p a); [done|by constructor].
Qed.

(** *** Runs of white space *)

Lemma collapse_from_ink b c (r : jstring) :
  is_space c = false → collapse_from b (c :: r) = c :: collapse_from false r.
Proof. intros H. simpl. by rewrite H. Qed.

Lemma collapse_from_app_ink b (d : jstring) h w :
  is_space h = false →
  collapse_from b (d ++ h :: w) = collapse_from b d ++ h :: collapse_from false w.
Proof.
  intros Hh. revert b. induction d as [|a d IH]; intros b; simpl.
  - by rewrite Hh.
  - destruct (is_space a); [destruct b|]; by rewrite IH.
Qed.

Lemma collapse_from_run b (ws y : jstring) :
  spaceRun ws →
  collapse_from b (ws ++ y) = (if b then [] else [32]) ++ collapse_from true y.
Proof.
  intros [Hne Hws]. revert b. induction Hws as [|a ws Ha Hws IH]; intros b; [done|].
  simpl. rewrite Ha. destruct ws as [|a' ws'].
  - simpl. by destruct b.
  - rewrite IH by done. simpl. by destruct b.
Qed.

Lemma collapse_from_prefix (x z z' : jstring) :
  (∀ b, collapse_from b z = collapse_from b z') →
  ∀ b, collapse_from b (x ++ z) = collapse_from b (x ++ z').
Proof.
  intros H. induction x as [|a x IH]; intros b; simpl; [apply H|].
  destruct (is_space a); [destruct b|]; by rewrite IH.
Qed.

Lemma collapse_from_decoration U b (d : jstring) :
  isLetterOrNumber U 32 = false →
  decoration U d → decoration U (collapse_from b d).
Proof.
  intros H32 Hd. revert b. induction Hd as [|a d Ha Hd IH]; intros b; simpl;
    [constructor|].
  destruct (is_space a); [destruct b|].
  - apply IH.
  - apply Forall_cons. split; [done|apply IH].
  - apply Forall_cons. split; [done|apply IH].
Qed.

(** [from_option is_space b (last x)]: whether the text read so far ends
    inside a run of white space. *)
Lemma collapse_from_snoc b (x : jstring) c :
  collapse_from b (x ++ [c])
  = collapse_from b x
    ++ (if is_space c
        then (if from_option is_space b (last x) then [] else [32])
        else [c]).
Proof.
  revert b. induction x as [|a x IH]; intros b; simpl.
  - destruct (is_space c); [by destruct b|done].
  - assert (from_option is_space b (last (a :: x))
            = from_option is_space (is_space a) (last x)) as ->.
    { rewrite last_cons. by destruct (last x). }
    destruct (is_space a) eqn:Ha; [destruct b|]; by rewrite IH.
Qed.

Lemma drop_while_space_collapse (x : jstring) :
  ∀ b, drop_while is_space (collapse_from b x)
       = collapse_from false (drop_while is_space x).
Proof.
  induction x as [|a x IH]; intros b; simpl; [done|].
  destruct (is_space a) eqn:Ha.
  - destruct b; [apply IH|]. simpl. apply IH.
  - simpl. by rewrite Ha.
Qed.

Lemma drop_end_while_space_collapse b (x : jstring) :
  drop_end_while is_space (collapse_from b x)
  = collapse_from b (drop_end_while is_space x).
Proof.
  induction x as [|c x IH] using rev_ind; [done|].
  rewrite collapse_from_snoc, (drop_end_while_snoc _ x c).
  destruct (is_space c) eqn:Hc.
  - destruct (from_option is_space b (last x)).
    + by rewrite app_nil_r.
    + by rewrite drop_end_while_snoc.
  - by rewrite drop_end_while_snoc, Hc, collapse_from_snoc, Hc.
Qed.

Lemma trim_collapse (x : jstring) :
  trim (collapseSpaces x) = collapseSpaces (trim x).
Proof.
  unfold trim, collapseSpaces.
  by rewrite drop_while_space_collapse, drop_end_while_space_collapse.
Qed.

Lemma drop_while_slash_collapse (x : jstring) :
  drop_while is_slash (collapse_from false x)
  = collapse_from false (drop_while is_slash x).
Proof.
  induction x as [|a x IH]; [done|].
  simpl drop_while at 2. destruct (is_slash a) eqn:Ha.
  - rewrite (collapse_from_ink _ _ _ (slash_not_space _ Ha)). simpl.
    by rewrite Ha.
  - simpl. destruct (is_space a); simpl; [done|by rewrite Ha].
Qed.

Lemma drop_end_while_slash_in_run b (x : jstring) :
  from_option is_space b (last x) = true →
  drop_end_while is_slash (collapse_from b x) = collapse_from b x.
Proof.
  induction x as [|c x IH] using rev_ind; intros H.
  - simpl in *. by destruct b.
  - rewrite last_snoc in H. simpl in H. rewrite collapse_from_snoc, H.
    destruct (from_option is_space b (last x)) eqn:Hrun.
    + rewrite app_nil_r. by apply IH.
    + by rewrite drop_end_while_snoc.
Qed.

Lemma drop_end_while_slash_collapse b (x : jstring) :
  drop_end_while is_slash (collapse_from b x)
  = collapse_from b (drop_end_while is_slash x).
Proof.
  induction x as [|c x IH] using rev_ind; [done|].
  rewrite (drop_end_while_snoc _ x c). destruct (is_slash c) eqn:Hc.
  - rewrite collapse_from_snoc, (slash_not_space _ Hc).
    by rewrite drop_end_while_snoc, Hc.
  - rewrite collapse_from_snoc. destruct (is_space c) eqn:Hs.
    + destruct (from_option is_space b (last x)) eqn:Hrun.
      * rewrite app_nil_r. by apply drop_end_while_slash_in_run.
      * by rewrite drop_end_while_snoc.
    + by rewrite drop_end_while_snoc, Hc.
Qed.

(** The steps between lower-casing and the collapsing of white space can
    be taken after the collapsing. *)
Lemma collapse_commutes (x : jstring) :
  collapseSpaces (drop_end_while is_slash (drop_while is_slash (trim x)))
  = drop_end_while is_slash (drop_while is_slash (trim (collapseSpaces x))).
Proof.
  rewrite trim_collapse. unfold collapseSpaces.
  by rewrite drop_while_slash_collapse, drop_end_while_slash_collapse.
Qed.

Lemma sameFolder_collapse U (a b : jstring) :
  collapseSpaces (toLowerCase U a) = collapseSpaces (toLowerCase U b) →
  sameFolder U a b.
Proof.
  intros H. unfold sameFolder, normalizeFolderName. cbv zeta.
  by rewrite !collapse_commutes, H.
Qed.

Lemma collapse_run_anywhere (x ws ws' y : jstring) :
  spaceRun ws → spaceRun ws' →
  collapseSpaces (x ++ ws ++ y) = collapseSpaces (x ++ ws' ++ y).
Proof.
  intros Hws Hws'. apply collapse_from_prefix. intros b.
  by rewrite !collapse_from_run.
Qed.

(** The key of a label that is, in lower case, a decoration and then a
    letter or a number: the decoration is gone. *)
Lemma normalize_decorated U (a d : jstring) h w :
  lettersAreInk U → decoration U d → isLetterOrNumber U h = true →
  toLowerCase U a = d ++ h :: w →
  normalizeFolderName U a
  = nfkd U (h :: collapseSpaces
                   (drop_end_while is_slash (drop_end_while is_space w))).
Proof.
  intros HU Hd Hh Ha. destruct (HU h Hh) as [Hsp Hsl].
  assert (isLetterOrNumber U 32 = false) as H32.
  { destruct (isLetterOrNumber U 32) eqn:E; [|done].
    by destruct (HU 32 E) as [? _]. }
  unfold normalizeFolderName. cbv zeta. rewrite Ha. unfold trim.
  rewrite (drop_while_app_stop _ _ _ _ Hsp).
  rewrite (drop_end_while_app_stop _ _ _ _ Hsp).
  rewrite (drop_while_app_stop _ _ _ _ Hsl).
  rewrite (drop_end_while_app_stop _ _ _ _ Hsl).
  unfold collapseSpaces. rewrite (collapse_from_app_ink _ _ _ _ Hsp).
  f_equal.
  set (e := collapse_from false _).
  assert (decoration U e) as He.
  { apply collapse_from_decoration; [done|]. by do 2 apply drop_while_decoration. }
  clearbody e. induction He as [|c e Hc He IH]; simpl.
  - by rewrite Hh.
  - by rewrite Hc.
Qed.

Lemma sameFolder_runs U (a b x ws ws' y : jstring) :
  spaceRun ws → spaceRun ws' →
  toLowerCase U a = x ++ ws ++ y → toLowerCase U b = x ++ ws' ++ y →
  sameFolder U a b.
Proof.
  intros Hws Hws' Ha Hb. apply sameFolder_collapse.
  rewrite Ha, Hb. by apply collapse_run_anywhere.
Qed.

Lemma sameFolder_decorated U (a b d d' : jstring) h w :
  lettersAreInk U → decoration U d → decoration U d' →
  isLetterOrNumber U h = true →
  toLowerCase U a = d ++ h :: w → toLowerCase U b = d' ++ h :: w →
  sameFolder U a b.
Proof.
  intros HU Hd Hd' Hh Ha Hb. unfold sameFolder.
  by rewrite (normalize_decorated U a d h w), (normalize_decorated U b d' h w).
Qed.

Lemma spaceRun_map f (ws : jstring) :
  (∀ c, is_space (f c) = is_space c) → spaceRun ws → spaceRun (map f ws).
Proof.
  intros Hf [Hne Hws]. split; [by destruct ws|]. clear Hne.
  induction Hws as [|c ws Hc _ IH]; simpl; [constructor|].
  constructor; [by rewrite Hf|done].
Qed.

Lemma decoration_map U f (d : jstring) :
  (∀ c, isLetterOrNumber U (f c) = isLetterOrNumber U c) →
  decoration U d → decoration U (map f d).
Proof.
  intros Hf Hd. induction Hd as [|c d Hc _ IH]; simpl; [constructor|].
  constructor; [by rewrite Hf|done].
Qed.

Lemma BasicLatin_lowersByCharacter :
  lowersByCharacter BasicLatin
    (λ c, if (65 <=? c) && (c <=? 90) then c + 32 else c).
Proof.
  split; [done|]. split; intros c.
  - destruct (N.leb_spec 65 c), (N.leb_spec c 90); cbn [andb];
      try reflexivity; unfold is_space;
      repeat match goal with
      | |- context [?x <=? ?y] => destruct (N.leb_spec x y); try lia
      | |- context [?x =? ?y] => destruct (N.eqb_spec x y); try lia
      end; reflexivity.
  - cbn [isLetterOrNumber BasicLatin].
    destruct (N.leb_spec 65 c), (N.leb_spec c 90); cbn [andb];
      try reflexivity;
      repeat match goal with
      | |- context [?x <=? ?y] => destruct (N.leb_spec x y); try lia
      end; reflexivity.
Qed.

Lemma BasicLatin_lettersAreInk : lettersAreInk BasicLatin.
Proof.
  intros c H. unfold BasicLatin in H. cbn [isLetterOrNumber] in H.
  rewrite !orb_true_iff, !andb_true_iff, !N.leb_le in H.
  unfold is_space, is_slash.
  split; apply not_true_is_false; intros Hs;
    rewrite ?orb_true_iff, ?andb_true_iff, ?N.leb_le, ?N.eqb_eq in Hs; lia.
Qed.

(** C7: normalization is a function of the label alone, and "same
    canonical key" is an equivalence on labels under which decorated
    variants are the same folder.  Labels with the same lower-case form
    are; so are labels whose lower-case forms differ in their runs of
    white space only, in one place or in all; so are labels that, in
    lower case, are two decorations in front of the same text, which
    starts with a letter or a number.  Where lower-casing goes character
    by character, as in Basic Latin, the last two hold of the labels
    themselves: a run of white space may be any other run, and a
    decoration any other decoration.  The laptop-decorated
    "Technology" and the technologist-decorated, lower-case, padded
    "technology " have one key, and "tech nology" has another; slashes
    at the ends do not count, and the ligature of "fi" has the key of
    its letters. *)
Theorem normalize_stable_equivalence :
  (∀ U a, normalizeFolderName U a = normalizeFolderName U a)
  ∧ (∀ U, Equivalence (sameFolder U))
  ∧ (∀ U a b, toLowerCase U a = toLowerCase U b → sameFolder U a b)
  ∧ (∀ U a b,
       collapseSpaces (toLowerCase U a) = collapseSpaces (toLowerCase U b) →
       sameFolder U a b)
  ∧ (∀ U a b x ws ws' y,
       spaceRun ws → spaceRun ws' →
       toLowerCase U a = x ++ ws ++ y → toLowerCase U b = x ++ ws' ++ y →
       sameFolder U a b)
  ∧ (∀ U a b d d' h w,
       lettersAreInk U → decoration U d → decoration U d' →
       isLetterOrNumber U h = true →
       toLowerCase U a = d ++ h :: w → toLowerCase U b = d' ++ h :: w →
       sameFolder U a b)
  ∧ (∀ U f x ws ws' y,
       lowersByCharacter U f → spaceRun ws → spaceRun ws' →
       sameFolder U (x ++ ws ++ y) (x ++ ws' ++ y))
  ∧ (∀ U f d d' h w,
       lowersByCharacter U f → lettersAreInk U →
       decoration U d → decoration U d' → isLetterOrNumber U h = true →
       sameFolder U (d ++ h :: w) (d' ++ h :: w))
  ∧ lettersAreInk BasicLatin
  ∧ lowersByCharacter BasicLatin
      (λ c, if (65 <=? c) && (c <=? 90) then c + 32 else c)
  ∧ normalizeFolderName BasicLatin laptop_Technology
    = normalizeFolderName BasicLatin technologist_technology
  ∧ normalizeFolderName BasicLatin laptop_Technology
    ≠ normalizeFolderName BasicLatin (str "tech nology")
  ∧ normalizeFolderName BasicLatin (str "/Guides/")
    = normalizeFolderName BasicLatin (str "guides")
  ∧ normalizeFolderName LatinLigature (64257 :: str "nance")
    = normalizeFolderName LatinLigature (str "Finance").
Proof.
  split; [done|]. split.
  { intros U. unfold sameFolder. split.
    - intros a. reflexivity.
    - intros a b H. symmetry. exact H.
    - intros a b c H1 H2. congruence. }
  split.
  { intros U a b H. unfold sameFolder, normalizeFolderName. cbv zeta.
    by rewrite H. }
  split; [exact sameFolder_collapse|].
  split; [exact sameFolder_runs|]. split; [exact sameFolder_decorated|].
  split.
  { intros U f x ws ws' y (Hf & Hsp & _) Hws Hws'.
    apply (sameFolder_runs U _ _ (map f x) (map f ws) (map f ws') (map f y)).
    - by apply spaceRun_map.
    - by apply spaceRun_map.
    - by rewrite Hf, !map_app.
    - by rewrite Hf, !map_app. }
  split.
  { intros U f d d' h w (Hf & _ & Hl) HU Hd Hd' Hh.
    apply (sameFolder_decorated U _ _ (map f d) (map f d') (f h) (map f w)).
    - done.
    - by apply decoration_map.
    - by apply decoration_map.
    - by rewrite Hl.
    - by rewrite Hf, map_app.
    - by rewrite Hf, map_app. }
  split; [exact BasicLatin_lettersAreInk|].
  split; [exact BasicLatin_lowersByCharacter|].
  split; [vm_compute; reflexivity|]. split; [vm_compute; discriminate|].
  split; vm_compute; reflexivity.
Qed.

Lemma normalize_stable_equivalence_witness :
  sameFolder BasicLatin (str "Web   Dev") (str "Web" ++ 9 :: str "Dev")
  ∧ sameFolder BasicLatin laptop_Technology
      (129489 :: 8205 :: 128187 :: str " Technology")
  ∧ sameFolder BasicLatin (str "Technology") (str "TECHnology").
Proof.
  destruct normalize_stable_equivalence
    as (_ & _ & Hcase & _ & _ & _ & Hws & Hdec & Hink & Hlow & _).
  split; [|split].
  - apply (Hws BasicLatin _ (str "Web") (str "   ") [9] (str "Dev") Hlow);
      (split; [discriminate|repeat constructor]).
  - apply (Hdec BasicLatin _ [128187; 32] [129489; 8205; 128187; 32]
             84 (str "echnology") Hlow Hink); repeat constructor.
  - apply Hcase. reflexivity.
Defined.

(** The set [seen] of the source holds the keys of the segments kept so
    far, which are the keys of all the segments passed so far. *)
Lemma filterSeen_dropRepeated U (path : list jstring) :
  ∀ (seen : gset jstring) (earlier : list jstring),
    (∀ k, k ∈ seen ↔ k ∈ normalizeFolderName U <$> earlier) →
    filterSeen U seen path = dropRepeated U earlier path.
Proof.
  induction path as [|p rest IH]; intros seen earlier Hseen; simpl; [done|].
  destruct (decide (normalizeFolderName U p ∈ seen)) as [Hin|Hout].
  - rewrite decide_True by (by apply Hseen).
    apply IH. intros k. rewrite fmap_app, elem_of_app, <- Hseen. set_solver.
  - rewrite decide_False by (by rewrite <- Hseen).
    f_equal. apply IH. intros k.
    rewrite fmap_app, elem_of_app, <- Hseen. set_solver.
Qed.

(** C6: [sanitizeFolderPath] trims every segment, drops the segments that
    are empty after trimming, and of the rest keeps a segment exactly
    when no earlier one has its canonical key; on
    ["  "; "News"; "World"; "News"] it returns ["News"; "World"]. *)
Theorem sanitize_first_occurrence_wins :
  (∀ U path, sanitizeFolderPath U path = sanitize_spec U path)
  ∧ sanitizeFolderPath BasicLatin
      [str "  "; str "News"; str "World"; str "News"]
    = [str "News"; str "World"].
Proof.
  split.
  - intros U path. unfold sanitizeFolderPath, sanitize_spec.
    rewrite (list_filter_iff _ (λ p : jstring, p ≠ [])) by apply js_length_pos.
    apply filterSeen_dropRepeated. intros k. set_solver.
  - vm_compute. reflexivity.
Qed.

(** ** FolderPathResolver *)

Lemma lookupNode_app_l (s e : Store) i n :
  lookupNode s i = Some n → lookupNode (s ++ e) i = Some n.
Proof. apply find_app_Some. Qed.

Lemma childrenOf_app (s e : Store) i :
  childrenOf (s ++ e) i = childrenOf s i ++ childrenOf e i.
Proof. apply filter_app. Qed.

Lemma childrenOf_cons (n : StoreNode) (s : Store) i :
  childrenOf (n :: s) i =
    if decide (parentId n = Some i) then n :: childrenOf s i else childrenOf s i.
Proof. unfold childrenOf. by rewrite filter_cons. Qed.

Lemma lookupNode_cons (n : StoreNode) (s : Store) i :
  lookupNode (n :: s) i = if decide (id n = i) then Some n else lookupNode s i.
Proof.
  unfold lookupNode. simpl. destruct (N.eqb_spec (id n) i);
    [by rewrite decide_True | by rewrite decide_False].
Qed.

Lemma lookupNode_Some (s : Store) i n :
  lookupNode s i = Some n → n ∈ s ∧ id n = i.
Proof.
  unfold lookupNode. intros H. apply find_some in H as [Hin Heq].
  split; [by apply list_elem_of_In | by apply N.eqb_eq].
Qed.

Lemma NoDup_id_inj (s : Store) n m :
  NoDup (id <$> s) → n ∈ s → m ∈ s → id n = id m → n = m.
Proof.
  induction s as [|x s IH]; intros Hd Hn Hm Heq; [by apply elem_of_nil in Hn|].
  simpl in Hd. apply NoDup_cons in Hd as [Hx Hd].
  apply elem_of_cons in Hn as [->|Hn]; apply elem_of_cons in Hm as [->|Hm];
    [done| | |by apply IH].
  - exfalso. apply Hx. rewrite Heq. by apply list_elem_of_fmap_2.
  - exfalso. apply Hx. rewrite <- Heq. by apply list_elem_of_fmap_2.
Qed.

Lemma lookupNode_None (s : Store) i : i ∉ id <$> s → lookupNode s i = None.
Proof.
  intros Hi. destruct (lookupNode s i) as [x|] eqn:Hl; [|done].
  apply lookupNode_Some in Hl as [Hx <-]. destruct Hi.
  by apply list_elem_of_fmap_2.
Qed.

Lemma lookupNode_self (s : Store) n :
  NoDup (id <$> s) → n ∈ s → lookupNode s (id n) = Some n.
Proof.
  intros Hd Hn. destruct (lookupNode s (id n)) as [x|] eqn:Hl.
  - apply lookupNode_Some in Hl as [Hx Hi]. f_equal. by apply (NoDup_id_inj s).
  - unfold lookupNode in Hl. apply list_elem_of_In in Hn.
    pose proof (find_none _ _ Hl n Hn) as H. simpl in H.
    by rewrite N.eqb_refl in H.
Qed.

Lemma freshId_above (s : Store) n : n ∈ s → id n < freshId s.
Proof.
  unfold freshId.
  induction s as [|m s IH]; intros Hn; [by apply elem_of_nil in Hn|].
  simpl. apply elem_of_cons in Hn as [->|Hn]; [lia|]. specialize (IH Hn). lia.
Qed.

(** In a store with distinct identifiers the loop of [ensureFolderPath]
    never meets a rejection, from any folder it starts at. *)
Lemma ensureLoop_total U (path : list jstring) :
  ∀ cur prev (s : Store),
    NoDup (id <$> s) → folderAt s cur →
    ∃ i s', ensureLoop U path cur prev s = Some (i, s')
            ∧ NoDup (id <$> s') ∧ folderAt s' i.
Proof.
  induction path as [|raw rest IH]; intros cur prev s Hd Hcur; simpl.
  - eauto.
  - destruct (decide (prev = Some (normalizeFolderName U raw))); [by apply IH|].
    destruct Hcur as (x & Hl & Hx). unfold findFolder, getChildren.
    rewrite Hl. simpl.
    destruct (find _ (childrenOf s cur)) as [f|] eqn:Hf.
    + apply find_some in Hf as [Hin Hw]. apply list_elem_of_In in Hin.
      apply list_elem_of_filter in Hin as [_ Hin].
      apply andb_true_iff in Hw as [Hu _]. apply negb_true_iff in Hu.
      apply IH; [done|]. exists f. split; [by apply lookupNode_self|done].
    + unfold create. rewrite Hl, Hx. simpl.
      assert (freshId s ∉ id <$> s) as Hfresh.
      { intros (m & Hm & Hin)%list_elem_of_fmap.
        pose proof (freshId_above s m Hin). lia. }
      apply IH.
      * rewrite fmap_app. apply NoDup_app. split; [done|].
        split; [|apply NoDup_singleton].
        intros j Hj Hj'. apply list_elem_of_singleton in Hj'. simpl in Hj'.
        by subst j.
      * exists {| id := freshId s; parentId := Some cur;
                  title := folderTitle raw; url := None |}.
        split; [|reflexivity].
        unfold lookupNode. rewrite find_app_None by (by apply lookupNode_None).
        simpl. by rewrite N.eqb_refl.
Qed.

(** In a store with distinct identifiers that holds the folder ['1'],
    [ensureFolderPath] returns a folder. *)
Lemma ensureFolderPath_returns U (path : list jstring) (s : Store) :
  NoDup (id <$> s) → folderAt s 1 →
  ∃ i s', ensureFolderPath U path s = Some (i, s') ∧ folderAt s' i.
Proof.
  intros Hd H1. destruct (ensureLoop_total U path 1 None s Hd H1)
    as (i & s' & H & _ & Hi). eauto.
Qed.

Example chromeStore_resolves U (path : list jstring) :
  ∃ i s', ensureFolderPath U path chromeStore = Some (i, s') ∧ folderAt s' i.
Proof.
  apply ensureFolderPath_returns.
  - apply (bool_decide_unpack (NoDup (id <$> chromeStore))). vm_compute. exact I.
  - exists (folderNode 1 (Some 0) "Bookmarks bar"). split; reflexivity.
Qed.

Section Replay.
Variable U : UnicodeData.

(** Nodes appended to the store do not change what [findFolder] finds
    among the older children; they are searched after them. *)
Lemma findFolder_app (s e : Store) cur name x :
  lookupNode s cur = Some x →
  findFolder U (s ++ e) cur name =
    Some (match find (isWanted U (normalizeFolderName U name))
                     (childrenOf s cur) with
          | Some f => Some f
          | None => find (isWanted U (normalizeFolderName U name))
                         (childrenOf e cur)
          end).
Proof.
  intros Hl. unfold findFolder, getChildren.
  rewrite (lookupNode_app_l _ _ _ _ Hl). simpl. f_equal.
  rewrite childrenOf_app.
  destruct (find _ (childrenOf s cur)) as [f|] eqn:Hf.
  - by apply find_app_Some.
  - by apply find_app_None.
Qed.

(** A run of the loop only appends to the store, and a second run with
    the same keys, in the resulting store or a later one, walks the
    same folders and creates nothing. *)
Lemma ensureLoop_replay (path : list jstring) :
  ∀ path2 : list jstring,
    normalizeFolderName U <$> path2 = normalizeFolderName U <$> path →
    Forall (keyStable U) path →
    ∀ cur prev (s : Store) i s',
      ensureLoop U path cur prev s = Some (i, s') →
      (∃ added, s' = s ++ added)
      ∧ ∀ ext, ensureLoop U path2 cur prev (s' ++ ext) = Some (i, s' ++ ext).
Proof.
  induction path as [|raw rest IH]; intros path2 Hk Hst cur prev s i s' Hrun.
  - destruct path2; [|done]. simpl in Hrun. injection Hrun as <- <-.
    split; [exists []; by rewrite app_nil_r | done].
  - destruct path2 as [|raw2 rest2]; [done|].
    injection Hk as Hk1 Hk2. apply Forall_cons in Hst as [Hraw Hrest].
    simpl in Hrun |- *. rewrite Hk1.
    destruct (decide (prev = Some (normalizeFolderName U raw))) as [Hskip|Hgo].
    { by apply IH. }
    unfold findFolder, getChildren in Hrun.
    destruct (lookupNode s cur) as [x|] eqn:Hl; [|done]. simpl in Hrun.
    destruct (find _ (childrenOf s cur)) as [f|] eqn:Hf.
    + destruct (IH rest2 Hk2 Hrest _ _ _ _ _ Hrun) as [[added ->] Hre].
      split; [by exists added|]. intros ext.
      rewrite <- (assoc_L (++)).
      rewrite (findFolder_app _ _ _ _ _ Hl), Hk1, Hf. simpl.
      rewrite (assoc_L (++)). apply Hre.
    + unfold create in Hrun. rewrite Hl in Hrun.
      destruct (has_url (url x)); [done|]. simpl in Hrun.
      destruct (IH rest2 Hk2 Hrest _ _ _ _ _ Hrun) as [[added ->] Hre].
      split; [eexists (_ :: added); by rewrite <- (assoc_L (++))|]. intros ext.
      specialize (Hre ext). rewrite <- !(assoc_L (++)) in Hre |- *.
      rewrite (findFolder_app _ _ _ _ _ Hl), Hk1, Hf.
      unfold childrenOf at 1. simpl app. rewrite filter_cons_True by done.
      simpl find. unfold isWanted at 1. simpl.
      rewrite bool_decide_eq_true_2 by exact Hraw. exact Hre.
Qed.
End Replay.

(** Resolution converges for the paths whose segments keep their key when
    stored: after [ensure] on such a path, [ensure] on any path with the
    same keys returns the same folder and leaves the store as it is. *)
Lemma ensure_converges U (path path2 : list jstring) (s : Store) i s' :
  Forall (keyStable U) path →
  normalizeFolderName U <$> path2 = normalizeFolderName U <$> path →
  ensureFolderPath U path s = Some (i, s') →
  ensureFolderPath U path2 s' = Some (i, s').
Proof.
  intros Hst Hk Hrun. unfold ensureFolderPath in *.
  destruct (ensureLoop_replay U path path2 Hk Hst _ _ _ _ _ Hrun) as [_ Hre].
  specialize (Hre []). by rewrite app_nil_r in Hre.
Qed.

(** The path of the specification, resolved twice, and resolved again in
    a decorated spelling. *)
Example ensure_Coding_Guides_HTML :
  ∃ s', ensureFolderPath BasicLatin [str "Coding"; str "Guides"; str "HTML"]
          chromeStore = Some (8, s')
    ∧ ensureFolderPath BasicLatin [str "Coding"; str "Guides"; str "HTML"] s'
      = Some (8, s')
    ∧ ensureFolderPath BasicLatin
        [129489 :: 8205 :: 128187 :: str " coding"; str "/Guides"; str "html "] s'
      = Some (8, s').
Proof.
  eexists. split; [vm_compute; reflexivity|].
  split;
    apply (ensure_converges BasicLatin
             [str "Coding"; str "Guides"; str "HTML"] _ chromeStore);
    try (vm_compute; reflexivity);
    repeat (constructor; [vm_compute; reflexivity|]); constructor.
Qed.

(** C1: on the sanitized path ["a /"] the second [ensure] does not find
    the folder the first one created: the stored title "a " has key "a",
    the segment has key "a ", and a second folder is created beside the
    first. *)
Theorem ensure_trailing_slash_creates_sibling :
  sanitizeFolderPath BasicLatin [str "a /"] = [str "a /"]
  ∧ normalizeFolderName BasicLatin (str "a /") = str "a "
  ∧ normalizeFolderName BasicLatin (folderTitle (str "a /")) = str "a"
  ∧ ensureFolderPath BasicLatin [str "a /"] chromeStore
    = Some (6, chromeStore ++ [folderNode 6 (Some 1) "a "])
  ∧ ensureFolderPath BasicLatin [str "a /"]
      (chromeStore ++ [folderNode 6 (Some 1) "a "])
    = Some (7, chromeStore ++ [folderNode 6 (Some 1) "a ";
                               folderNode 7 (Some 1) "a "]).
Proof. repeat split; vm_compute; reflexivity. Qed.

(** ** EmptyFolderCollector *)

(** The visit of a node, with the loop over the children named. *)
Lemma traverseAndRemove_eq i t u c st :
  traverseAndRemove (TreeNode i t u c) st =
    if has_url u then (false, st)
    else let '(h, st1) := visitChildren c st in
         if negb h && negb (isSystemId i) then tryRemove i st1
         else (negb h, st1).
Proof. destruct c as [[|x l]|]; reflexivity. Qed.

Lemma sweeps_refl ids st : sweeps ids st st.
Proof. exists []. rewrite app_nil_r. set_solver. Qed.

Lemma sweeps_trans ids st1 st2 st3 :
  sweeps ids st1 st2 → sweeps ids st2 st3 → sweeps ids st1 st3.
Proof.
  intros (n1 & E1 & I1 & K1 & S1 & D1) (n2 & E2 & I2 & K2 & S2 & D2).
  exists (n1 ++ n2). split; [by rewrite E2, E1, (assoc_L (++))|].
  split; [intros i [?|?]%elem_of_app; auto|].
  split; [intros n Hn Hi; apply K2; [apply K1|]; set_solver|].
  split; [auto|]. intros Hd. destruct (D1 Hd) as [Hd2 L1].
  destruct (D2 Hd2) as [Hd3 L2]. split; [done|lia].
Qed.

Lemma sweeps_mono ids ids' st st' :
  ids ⊆ ids' → sweeps ids st st' → sweeps ids' st st'.
Proof.
  intros Hsub (n & E & I & K). exists n. split; [done|]. split; [|done].
  intros i Hi. destruct (I i Hi). split; [by apply Hsub|done].
Qed.

(** With distinct identifiers [remove] takes exactly one node away. *)
Lemma length_remove_one (s : Store) i :
  NoDup (id <$> s) → i ∈ id <$> s →
  S (length (filter (λ n, id n ≠ i) s)) = length s.
Proof.
  induction s as [|n s IH]; simpl; intros Hd Hi; [by apply elem_of_nil in Hi|].
  apply NoDup_cons in Hd as [Hn Hd].
  rewrite filter_cons. destruct (decide (id n ≠ i)) as [Hne|Heq].
  - simpl. f_equal. apply IH; [done|]. set_solver.
  - assert (id n = i) as <- by (destruct (decide (id n = i)); [done|contradiction]).
    f_equal. clear IH Hi Hd Heq.
    induction s as [|m s IH]; [done|]. rewrite filter_cons_True by set_solver.
    simpl. f_equal. apply IH. set_solver.
Qed.

Lemma tryRemove_sweeps ids i st :
  i ∈ ids → isSystemId i = false → sweeps ids st (tryRemove i st).2.
Proof.
  intros Hi Hsys. unfold tryRemove, remove.
  destruct (lookupNode (store st) i) as [x|] eqn:Hl; simpl.
  2:{ exists [i]. simpl. set_solver. }
  destruct (childrenOf (store st) i); simpl.
  2:{ exists [i]. simpl. set_solver. }
  apply lookupNode_Some in Hl as [Hx Hxi].
  exists [i]. simpl. split; [done|]. split; [set_solver|].
  split; [intros n Hn Hne; apply list_elem_of_filter; set_solver|].
  split; [intros n Hn; by apply list_elem_of_filter in Hn as [_ ?]|].
  intros Hd. split.
  - eapply sublist_NoDup; [exact Hd|]. apply fmap_sublist, sublist_filter.
  - rewrite <- (length_remove_one (store st) i); [lia|done|set_solver].
Qed.

Lemma eachChild_sweeps ids (l : list BookmarkTreeNode) :
  Forall (λ t, ∀ st, sweeps ids st (traverseAndRemove t st).2) l →
  ∀ h st, sweeps ids st (eachChild l h st).2.
Proof.
  induction 1 as [|t l Ht _ IH]; intros h st; simpl; [apply sweeps_refl|].
  specialize (Ht st). destruct (traverseAndRemove t st) as [r st'].
  eapply sweeps_trans; [exact Ht|apply IH].
Qed.

Lemma visitChildren_sweeps ids (c : option (list BookmarkTreeNode)) :
  Forall (λ t, ∀ st, sweeps ids st (traverseAndRemove t st).2)
         (default [] c) →
  ∀ st, sweeps ids st (visitChildren c st).2.
Proof.
  intros H st. destruct c as [[|x l]|]; unfold visitChildren;
    [apply sweeps_refl | by apply eachChild_sweeps | apply sweeps_refl].
Qed.

Lemma folderIds_child i t u (l : list BookmarkTreeNode) x :
  x ∈ l → folderIds x ⊆ folderIds (TreeNode i t u (Some l)).
Proof.
  intros Hx j Hj. simpl. apply elem_of_app. right.
  apply list_elem_of_bind. eauto.
Qed.

(** The visit of a snapshot calls [remove] only on its own folders. *)
Lemma traverseAndRemove_sweeps (t : BookmarkTreeNode) :
  ∀ st, sweeps (folderIds t) st (traverseAndRemove t st).2.
Proof.
  induction t as [i t u c IH] using tree_induction. intros st.
  rewrite traverseAndRemove_eq.
  destruct (has_url u) eqn:Hu; [apply sweeps_refl|].
  assert (sweeps (folderIds (TreeNode i t u c)) st (visitChildren c st).2)
    as Hkids.
  { apply visitChildren_sweeps. apply Forall_forall. intros y Hy st'.
    destruct c as [l|]; [|by apply elem_of_nil in Hy]. simpl in Hy, IH.
    eapply sweeps_mono; [by apply folderIds_child|].
    by apply (proj1 (Forall_forall _ _) IH). }
  destruct (visitChildren c st) as [h st1]. simpl in Hkids.
  destruct (negb h && negb (isSystemId i)) eqn:Hgo; [|done].
  eapply sweeps_trans; [exact Hkids|]. apply tryRemove_sweeps.
  - simpl. rewrite Hu. set_solver.
  - apply andb_true_iff in Hgo as [_ Hs]. by apply negb_true_iff in Hs.
Qed.

(** In a ranked store one more unit of fuel changes nothing once the
    fuel has reached the rank of the node. *)
Lemma subTree_fuel_stable (rank : StoreNode → nat) (s : Store) :
  ranked rank s →
  ∀ fuel n, n ∈ s → (rank n ≤ fuel)%nat →
    subTree (S fuel) s n = subTree fuel s n.
Proof.
  intros Hr. induction fuel as [|fuel IH]; intros n Hn Hle.
  - simpl. destruct (has_url (url n)); [done|]. do 2 f_equal.
    destruct (childrenOf s (id n)) as [|c l] eqn:Hc; [done|].
    assert (rank c < rank n)%nat; [|lia].
    apply Hr; [done|]. rewrite Hc. constructor.
  - change (subTree (S (S fuel)) s n) with
      (TreeNode (id n) (title n) (url n)
         (if has_url (url n) then None
          else Some (map (subTree (S fuel) s) (childrenOf s (id n))))).
    change (subTree (S fuel) s n) with
      (TreeNode (id n) (title n) (url n)
         (if has_url (url n) then None
          else Some (map (subTree fuel s) (childrenOf s (id n))))).
    destruct (has_url (url n)); [done|]. do 2 f_equal.
    apply map_ext_in. intros c Hc%list_elem_of_In.
    apply IH.
    + by apply list_elem_of_filter in Hc as [_ ?].
    + specialize (Hr n c Hn Hc). lia.
Qed.

(** The fuel of [getTree] is enough: in a store ranked within its node
    count, more fuel yields the same snapshot. *)
Lemma getTree_fuel_enough (rank : StoreNode → nat) (s : Store) :
  ranked rank s → (∀ n, n ∈ s → (rank n ≤ length s)%nat) →
  ∀ extra, map (subTree (length s + extra) s)
               (filter (λ n, parentId n = None) s) = getTree s.
Proof.
  intros Hr Hb extra. unfold getTree. apply map_ext_in.
  intros n Hn%list_elem_of_In. apply list_elem_of_filter in Hn as [_ Hn].
  induction extra as [|k IH]; [by rewrite Nat.add_0_r|].
  rewrite Nat.add_succ_r, <- IH. apply (subTree_fuel_stable rank); [done..|].
  specialize (Hb n Hn). lia.
Qed.

Example chromeStore_snapshot_complete (extra : nat) :
  map (subTree (4 + extra) chromeStore)
      (filter (λ n, parentId n = None) chromeStore)
  = getTree chromeStore.
Proof.
  apply (getTree_fuel_enough chromeRank chromeStore).
  - intros n c Hn Hc. unfold chromeStore in Hn.
    repeat (apply elem_of_cons in Hn as [->|Hn]);
      try (by apply elem_of_nil in Hn);
      vm_compute in Hc;
      repeat (apply elem_of_cons in Hc as [->|Hc]);
      try (by apply elem_of_nil in Hc); vm_compute; lia.
  - intros n Hn. unfold chromeStore in Hn.
    repeat (apply elem_of_cons in Hn as [->|Hn]);
      try (by apply elem_of_nil in Hn); vm_compute; lia.
Qed.

(** Every folder of a snapshot is a folder of the store it was taken of. *)
Lemma subTree_folderIds (s : Store) (fuel : nat) :
  ∀ n i, n ∈ s → i ∈ folderIds (subTree fuel s n) →
    ∃ m, m ∈ s ∧ id m = i ∧ has_url (url m) = false.
Proof.
  induction fuel as [|fuel IH]; intros n i Hn Hi; simpl in Hi.
  - destruct (has_url (url n)) eqn:Hu; simpl in Hi; [by apply elem_of_nil in Hi|].
    apply list_elem_of_singleton in Hi as ->. eauto.
  - destruct (has_url (url n)) eqn:Hu; simpl in Hi; [by apply elem_of_nil in Hi|].
    apply elem_of_cons in Hi as [->|Hi]; [eauto|].
    apply list_elem_of_bind in Hi as (y & Hiy & Hy).
    apply list_elem_of_In, in_map_iff in Hy as (k & <- & Hk).
    apply list_elem_of_In, list_elem_of_filter in Hk as [_ Hk]. eauto.
Qed.

(** C2, as the code has it: in a new profile the visit of the empty
    bookmarks bar, a protected root, returns [true], "empty", and deletes
    nothing. *)
Lemma system_root_reports_empty :
  getTree emptyProfile
  = [TreeNode 0 [] None
       (Some [emptyBar; TreeNode 2 (str "Other bookmarks") None (Some [])])]
  ∧ isSystemId 1 = true
  ∧ traverseAndRemove emptyBar (sweepStart emptyProfile)
    = (true, sweepStart emptyProfile).
Proof. repeat split. Qed.

(** C2, amended: the visit of a protected folder issues no [remove] of its
    own and reports "empty" exactly when no child reported "not empty";
    no [remove] is ever called with a protected identifier, and a store
    node with a protected identifier survives every visit. *)
Theorem system_root_never_deleted :
  (∀ i t u c st, isSystemId i = true → has_url u = false →
     traverseAndRemove (TreeNode i t u c) st
     = (negb (visitChildren c st).1, (visitChildren c st).2))
  ∧ (∀ root st i, i ∈ removeCalls (traverseAndRemove root st).2 →
       i ∈ removeCalls st ∨ isSystemId i = false)
  ∧ (∀ root st n, n ∈ store st → isSystemId (id n) = true →
       n ∈ store (traverseAndRemove root st).2).
Proof.
  split; [|split].
  - intros i t u c st Hsys Hu. rewrite traverseAndRemove_eq, Hu, Hsys.
    destruct (visitChildren c st) as [h st1]. simpl.
    by rewrite andb_false_r.
  - intros root st i Hi.
    destruct (traverseAndRemove_sweeps root st) as (new & E & I & _).
    rewrite E in Hi. apply elem_of_app in Hi as [?|Hi]; [by left|].
    right. by apply I.
  - intros root st n Hn Hsys.
    destruct (traverseAndRemove_sweeps root st) as (new & _ & I & K & _).
    apply K; [done|]. intros Hi. destruct (I _ Hi). congruence.
Qed.

Lemma system_root_never_deleted_witness :
  isSystemId 1 = true
  ∧ traverseAndRemove emptyBar (sweepStart emptyProfile)
    = (true, sweepStart emptyProfile)
  ∧ folderNode 1 (Some 0) "Bookmarks bar"
    ∈ store (removeEmptyFolders emptyProfile).
Proof.
  destruct system_root_never_deleted as (Hvisit & _ & Hkeep).
  split; [reflexivity|]. split.
  - unfold emptyBar.
    rewrite (Hvisit 1 (str "Bookmarks bar") None (Some [])
               (sweepStart emptyProfile)); reflexivity.
  - apply (Hkeep (subTree 3 emptyProfile (folderNode 0 None EmptyString))
                 (sweepStart emptyProfile));
      [|reflexivity].
    unfold emptyProfile, sweepStart. simpl. do 2 constructor.
Defined.

(** C5: in a store that holds a protected root [A], a folder [B] in [A]
    and an empty folder [C] in [B], the sweep deletes [C], then [B],
    returns 2 and leaves [A], childless, in the store. *)
Theorem deletion_cascades (a b c : N) (ta tb tc : jstring) :
  isSystemId a = true → isSystemId b = false → isSystemId c = false → b ≠ c →
  let A := {| id := a; parentId := None; title := ta; url := None |} in
  let B := {| id := b; parentId := Some a; title := tb; url := None |} in
  let C := {| id := c; parentId := Some b; title := tc; url := None |} in
  removeEmptyFolders [A; B; C]
  = {| store := [A]; removedCount := 2; removeCalls := [c; b] |}.
Proof.
  intros Ha Hb Hc Hbc A B C.
  assert (a ≠ b) as Hab by (intros ->; congruence).
  assert (a ≠ c) as Hac by (intros ->; congruence).
  assert (childrenOf [A; B; C] a = [B]) as Ka.
  { rewrite !childrenOf_cons. simpl. repeat case_decide; simplify_eq; done. }
  assert (childrenOf [A; B; C] b = [C]) as Kb.
  { rewrite !childrenOf_cons. simpl. repeat case_decide; simplify_eq; done. }
  assert (childrenOf [A; B; C] c = []) as Kc.
  { rewrite !childrenOf_cons. simpl. repeat case_decide; simplify_eq; done. }
  assert (getTree [A; B; C] =
          [TreeNode a ta None (Some [TreeNode b tb None
             (Some [TreeNode c tc None (Some [])])])]) as Htree.
  { unfold getTree. change (filter _ [A; B; C]) with [A].
    change (length [A; B; C]) with 3%nat.
    change (map ?f [A]) with [f A].
    change (subTree 3 [A; B; C] A) with
      (TreeNode a ta None
         (Some (map (subTree 2 [A; B; C]) (childrenOf [A; B; C] a)))).
    rewrite Ka.
    change (map ?f [B]) with [f B].
    change (subTree 2 [A; B; C] B) with
      (TreeNode b tb None
         (Some (map (subTree 1 [A; B; C]) (childrenOf [A; B; C] b)))).
    rewrite Kb.
    change (map ?f [C]) with [f C].
    change (subTree 1 [A; B; C] C) with
      (TreeNode c tc None
         (Some (map (subTree 0 [A; B; C]) (childrenOf [A; B; C] c)))).
    by rewrite Kc. }
  assert (remove [A; B; C] c = Some [A; B]) as Rc.
  { unfold remove. rewrite Kc, !lookupNode_cons, !filter_cons, filter_nil.
    simpl. repeat case_decide; simplify_eq; done. }
  assert (remove [A; B] b = Some [A]) as Rb.
  { unfold remove. rewrite !childrenOf_cons, !lookupNode_cons, !filter_cons,
      filter_nil. simpl. repeat case_decide; simplify_eq; done. }
  unfold removeEmptyFolders. rewrite Htree.
  set (st0 := {| store := [A; B; C]; removedCount := 0; removeCalls := [] |}).
  assert (traverseAndRemove (TreeNode c tc None (Some [])) st0
          = (true, {| store := [A; B]; removedCount := 1; removeCalls := [c] |}))
    as Tc.
  { rewrite traverseAndRemove_eq. simpl. rewrite Hc. simpl.
    unfold tryRemove. simpl. by rewrite Rc. }
  assert (traverseAndRemove
            (TreeNode b tb None (Some [TreeNode c tc None (Some [])])) st0
          = (true, {| store := [A]; removedCount := 2; removeCalls := [c; b] |}))
    as Tb.
  { rewrite traverseAndRemove_eq. unfold visitChildren, eachChild.
    rewrite Tc. simpl. rewrite Hb. simpl.
    unfold tryRemove. simpl. by rewrite Rb. }
  rewrite traverseAndRemove_eq. unfold visitChildren, eachChild.
  rewrite Tb. simpl. by rewrite Ha.
Qed.

Lemma deletion_cascades_witness :
  (isSystemId 0 = true ∧ isSystemId 7 = false ∧ isSystemId 8 = false
   ∧ (7 : N) ≠ 8)
  ∧ removeEmptyFolders nestedStore
    = {| store := [folderNode 0 None EmptyString]; removedCount := 2;
         removeCalls := [8; 7] |}.
Proof.
  split; [repeat split; discriminate|].
  apply (deletion_cascades 0 7 8 [] (str "B") (str "C"));
    [reflexivity | reflexivity | reflexivity | discriminate].
Defined.

(** C9: a node with a url is reported "not empty" at once; and in a store
    with distinct identifiers the sweep never calls [remove] with the
    identifier of a bookmark, every bookmark of the store is in the
    store afterwards, every node that is gone was a folder, and the
    returned count is the number of nodes that are gone. *)
Theorem sweep_preserves_links :
  (∀ i t u c st, has_url u = true →
     traverseAndRemove (TreeNode i t u c) st = (false, st))
  ∧ ∀ s : Store, NoDup (id <$> s) →
      let r := removeEmptyFolders s in
      (∀ i n, i ∈ removeCalls r → n ∈ s → id n = i → has_url (url n) = false)
      ∧ (∀ n, n ∈ s → has_url (url n) = true → n ∈ store r)
      ∧ (∀ n, n ∈ s → n ∉ store r → has_url (url n) = false)
      ∧ (∀ n, n ∈ store r → n ∈ s)
      ∧ (length (store r) + removedCount r)%nat = length s.
Proof.
  split.
  { intros i t u c st Hu. by rewrite traverseAndRemove_eq, Hu. }
  intros s Hd r.
  assert (∃ ids,
     (∀ i, i ∈ ids → ∃ m, m ∈ s ∧ id m = i ∧ has_url (url m) = false)
     ∧ sweeps ids (sweepStart s) r)
    as (ids & Hids & (new & E & I & K & S & D)).
  { subst r. unfold removeEmptyFolders, getTree. fold (sweepStart s).
    destruct (filter _ s) as [|root rest] eqn:Hroots; simpl.
    - exists []. split; [set_solver|apply sweeps_refl].
    - exists (folderIds (subTree (length s) s root)). split.
      + intros i. apply subTree_folderIds.
        assert (root ∈ filter (λ n, parentId n = None) s) as Hr
          by (rewrite Hroots; set_solver).
        by apply list_elem_of_filter in Hr as [_ ?].
      + apply traverseAndRemove_sweeps. }
  simpl in *. subst new.
  assert (∀ i n, i ∈ removeCalls r → n ∈ s → id n = i → has_url (url n) = false)
    as Hcalls.
  { intros i n Hi Hn Hni. destruct (I i Hi) as [Hin _].
    destruct (Hids i Hin) as (m & Hm & Hmi & Hmu).
    assert (n = m) as ->; [|done].
    apply (NoDup_id_inj s); congruence. }
  assert (∀ n, n ∈ s → has_url (url n) = true → n ∈ store r) as Hlinks.
  { intros n Hn Hu. apply K; [done|]. intros Hc.
    specialize (Hcalls _ _ Hc Hn eq_refl). congruence. }
  split; [exact Hcalls|]. split; [exact Hlinks|].
  split; [|split; [exact S|]].
  - intros n Hn Hgone. destruct (has_url (url n)) eqn:Hu; [|done].
    destruct Hgone. by apply Hlinks.
  - destruct (D Hd) as [_ L]. lia.
Qed.

Lemma sweep_preserves_links_witness :
  NoDup (id <$> sweepStore)
  ∧ linkNode 5 1 "Rocq" "https://rocq-prover.org/"
    ∈ store (removeEmptyFolders sweepStore)
  ∧ (length (store (removeEmptyFolders sweepStore))
     + removedCount (removeEmptyFolders sweepStore))%nat = 5%nat
  ∧ removeCalls (removeEmptyFolders sweepStore) = [6].
Proof.
  assert (NoDup (id <$> sweepStore)) as Hd.
  { apply (bool_decide_unpack (NoDup (id <$> sweepStore))). vm_compute. exact I. }
  destruct sweep_preserves_links as [_ H].
  destruct (H sweepStore Hd) as (_ & Hlinks & _ & _ & Hcount).
  split; [exact Hd|]. split; [|split; [exact Hcount|reflexivity]].
  apply Hlinks; [|reflexivity].
  unfold sweepStore, chromeStore. simpl. do 4 constructor.
Defined.

(** ** ProviderSelector *)

(** The rules for the GitHub, Groq and OpenRouter prefixes stand before
    the length rule: they decide for keys of any length. *)
Lemma prefix_rules_before_length (key : jstring) :
  (startsWith key (str "gho_") = true → detectProvider key = copilot)
  ∧ (startsWith key (str "github_pat_") = true → detectProvider key = copilot)
  ∧ (startsWith key (str "gsk_") = true → detectProvider key = groq)
  ∧ (startsWith key (str "sk-or-v1-") = true → detectProvider key = openrouter).
Proof.
  unfold detectProvider. repeat split; intros H.
  - by rewrite H.
  - rewrite H. by rewrite orb_true_r.
  - apply startsWith_inv in H as [rest ->]. reflexivity.
  - apply startsWith_inv in H as [rest ->].
    assert (includes (str "sk-or-v1-" ++ rest) (str "or-v1") = true) as ->
      by reflexivity.
    rewrite andb_false_r. reflexivity.
Qed.

(** The rule for the xAI prefix stands after the length rule: a key with
    that prefix and more than 40 characters is a Moonshot key. *)
Lemma xai_long_key (key : jstring) :
  startsWith key (str "xai-") = true →
  includes key (str "openrouter") = false →
  40 < js_length key →
  detectProvider key = moonshot.
Proof.
  intros Hx Hor Hlen. apply startsWith_inv in Hx as [rest ->].
  unfold detectProvider. rewrite Hor.
  apply N.ltb_lt in Hlen. rewrite Hlen. simpl startsWith.
  by rewrite orb_true_r.
Qed.

(** C3: the credential "xai-" followed by forty "x", 44 characters
    long, with no explicit preference, resolves to Moonshot and not to
    Grok. *)
Theorem xai_prefix_loses_to_length_rule :
  startsWith xaiKey (str "xai-") = true
  ∧ js_length xaiKey = 44
  ∧ detectProvider xaiKey = moonshot
  ∧ resolveProvider freshFields xaiKey = moonshot
  ∧ moonshot ≠ grok.
Proof.
  split; [reflexivity|]. split; [reflexivity|].
  assert (detectProvider xaiKey = moonshot) as H.
  { apply xai_long_key; reflexivity. }
  split; [exact H|]. split; [|discriminate].
  unfold resolveProvider. simpl. rewrite H. reflexivity.
Qed.

(** ** ClassificationOrchestrator *)

(** C10: a stored credential of white space only is trimmed to the empty
    string, and the call ends as it does without a credential: with the
    missing-credential error, the preferences not loaded, and no request
    issued. *)
Theorem whitespace_credential_is_absent E self w url title existing key :
  getApiKey E = Some key → Forall (λ c, is_space c = true) key →
  let r := classifyUrl E self w url title existing in
  let r0 := classifyUrl (withApiKey None E) self w url title existing in
  r.1.1 = Err notConfigured
  ∧ r0.1.1 = Err notConfigured
  ∧ r.2 = w ∧ r0.2 = w
  ∧ providerOverride r.1.2 = providerOverride self
  ∧ selectedOpenRouterModel r.1.2 = selectedOpenRouterModel self.
Proof.
  intros Hk Hws. unfold classifyUrl, loadApiKey. simpl.
  rewrite Hk. simpl. rewrite (trim_whitespace _ Hws). done.
Qed.

Lemma whitespace_credential_is_absent_witness :
  Forall (λ c, is_space c = true) [32; 9; 160]
  ∧ (classifyUrl (withApiKey (Some [32; 9; 160]) answersFiveLevels)
       freshFields freshWorld rocqUrl rocqTitle []).1.1
    = Err notConfigured
  ∧ (classifyUrl (withApiKey (Some [32; 9; 160]) answersFiveLevels)
       freshFields freshWorld rocqUrl rocqTitle []).2
    = freshWorld.
Proof.
  assert (Forall (λ c, is_space c = true) [32; 9; 160]) as Hws
    by (repeat constructor).
  destruct (whitespace_credential_is_absent
              (withApiKey (Some [32; 9; 160]) answersFiveLevels)
              freshFields freshWorld rocqUrl rocqTitle [] [32; 9; 160]
              eq_refl Hws) as (Hr & _ & Hw & _).
  split; [exact Hws|]. split; [exact Hr|exact Hw].
Defined.

(** C4, as the code has it: when the retried completion is a 404 too, the
    call fails with the translated API error, after two requests, and
    not with the "no fallback model" error. *)
Lemma second_not_found_is_api_error :
  let res := classifyUrl alwaysNotFound freshFields freshWorld
               rocqUrl rocqTitle [] in
  res.1.1 = Err (Error (str "API Error (404): No endpoints found"))
  ∧ length (requests res.2) = 2%nat
  ∧ res.1.1 ≠ Err (Error (str "No fallback OpenRouter model available."))
  ∧ res.1.1 ≠ Err noFallback.
Proof. vm_compute. repeat split; discriminate. Qed.

(** C4, amended: when the first completion fails with a 404 and the
    provider is OpenRouter, the persisted choice is cleared and a default
    model is looked for.  If there is one, it is persisted and put in the
    provider, and exactly one more request is issued, with that model;
    the call then ends with that request: a failure is translated as
    any other (a second 404 gives "API Error (404): ..."), a response is
    parsed.  If there is none, the call fails with "Classification
    failed: No fallback OpenRouter model available." after the one
    request. *)
Theorem fallback_retries_once E self w url title existing key m1 :
  trim <$> getApiKey E = Some key → key ≠ [] →
  let self2 := loadPreferences E (loadApiKey E self) w in
  let p := resolveProvider self2 key in
  let prompt := {| p_url := url; p_title := title;
                   p_existingFoldersList := existingFoldersList existing |} in
  let r0 := mkRequest key p prompt in
  name p = Some (str "OpenRouter") →
  complete E r0 (length (requests w)) = Throws (APIError (Some 404) m1) →
  let res := classifyUrl E self w url title existing in
  let fallback := chooseDefaultOpenRouterModel E key in
  if truthyStr fallback
  then
    let r1 := mkRequest key (withModel fallback p) prompt in
    requests res.2 = requests w ++ [r0; r1]
    ∧ persistedModel res.2 = fallback
    ∧ match complete E r1 (S (length (requests w))) with
      | Throws e =>
          res.1.1 = Err (translate e)
          ∧ ∀ m2, e = APIError (Some 404) m2 →
              res.1.1 = Err (Error (str "API Error (404): " ++ m2))
      | Content c =>
          res.1.1 = match parseResponse E (contentOrEmpty c) with
                    | Ok x => Ok x
                    | Err e => Err (translate e)
                    end
      end
  else
    requests res.2 = requests w ++ [r0]
    ∧ persistedModel res.2 = None
    ∧ res.1.1 = Err noFallback.
Proof.
  intros Hk Hne self2 p prompt r0 Hname H404 res fallback.
  assert (isCopilot p = false) as Hcop.
  { unfold isCopilot. rewrite Hname. done. }
  subst res. unfold classifyUrl.
  change (apiKey (loadApiKey E self)) with (trim <$> getApiKey E).
  rewrite Hk. destruct key as [|k0 key]; [done|].
  fold self2. fold p. rewrite Hcop. fold prompt.
  unfold requestPhase, attemptClassification. fold r0. rewrite H404.
  rewrite (bool_decide_eq_true_2 _ Hname).
  simpl is404. cbv iota. simpl andb. cbv iota.
  fold fallback. destruct (truthyStr fallback) eqn:Hfb.
  - fold (withModel fallback p). simpl requests. simpl persistedModel.
    rewrite length_app. simpl length. rewrite Nat.add_1_r.
    set (r1 := mkRequest (k0 :: key) (withModel fallback p) prompt).
    rewrite <- (assoc_L (++)). simpl app.
    destruct (complete E r1 (S (length (requests w)))) as [c|e].
    + split; [|split]; [by destruct (parseResponse E (contentOrEmpty c))..|].
      by destruct (parseResponse E (contentOrEmpty c)).
    + split; [done|]. split; [done|]. split; [done|]. by intros m2 ->.
  - done.
Qed.

Lemma fallback_retries_once_witness :
  let res := classifyUrl alwaysNotFound freshFields freshWorld
               rocqUrl rocqTitle [] in
  requests res.2
  = [ mkRequest openRouterKey openrouter rocqPrompt;
      mkRequest openRouterKey
        (withModel (Some (str "meta-llama/llama-3.1-8b-instruct")) openrouter)
        rocqPrompt ]
  ∧ persistedModel res.2 = Some (str "meta-llama/llama-3.1-8b-instruct")
  ∧ res.1.1 = Err (Error (str "API Error (404): No endpoints found")).
Proof.
  pose proof (fallback_retries_once alwaysNotFound freshFields freshWorld
                rocqUrl rocqTitle [] openRouterKey (str "No endpoints found")
                eq_refl ltac:(discriminate) eq_refl eq_refl) as H.
  simpl in H. destruct H as (Hreq & Hmodel & _ & H404).
  split; [exact Hreq|]. split; [exact Hmodel|].
  exact (H404 _ eq_refl).
Defined.

Lemma getProp_Some_object nullMsg v key x :
  getProp nullMsg v key = inr (Some x) → ∃ fields, v = JObject fields.
Proof. destruct v; simpl; intros H; try done. eauto. Qed.

(** C8: when the response text is not empty, parses, and has a
    [folderPath] that is an array, [classifyUrl] returns the first three
    elements of that array, at most (of five elements, the first three),
    and the empty array for [tags] when the parsed object has no
    [tags]. *)
Theorem output_truncated E self w url title existing key actual result w'
    parsed items :
  trim <$> getApiKey E = Some key → key ≠ [] →
  let self2 := loadPreferences E (loadApiKey E self) w in
  let p := resolveProvider self2 key in
  let prompt := {| p_url := url; p_title := title;
                   p_existingFoldersList := existingFoldersList existing |} in
  (if isCopilot p then copilotToken E key else Some key) = Some actual →
  requestPhase E key actual p prompt w = (Ok result, w') →
  result ≠ [] →
  JSON_parse E (trim (stripFences 0 result)) = inl parsed →
  getProp (nullReadMessage E) parsed (str "folderPath")
    = inr (Some (JArray items)) →
  ∃ c, classifyUrl E self w url title existing = (Ok c, self2, w')
    ∧ folderPath c = take 3 items
    ∧ (length (folderPath c) ≤ 3)%nat
    ∧ (∀ x1 x2 x3 x4 x5,
         items = [x1; x2; x3; x4; x5] → folderPath c = [x1; x2; x3])
    ∧ (getProp (nullReadMessage E) parsed (str "tags") = inr None →
       tags c = JArray []).
Proof.
  intros Hk Hne self2 p prompt Htok Hreq Hres Hparse Hpath.
  destruct (getProp_Some_object _ _ _ _ Hpath) as [fields ->].
  unfold classifyUrl.
  change (apiKey (loadApiKey E self)) with (trim <$> getApiKey E).
  rewrite Hk. destruct key as [|k0 key]; [done|].
  fold self2. fold p. rewrite Htok. fold prompt. rewrite Hreq.
  unfold parseResponse. destruct result as [|c0 result]; [done|].
  rewrite Hparse, Hpath. simpl getProp.
  eexists. split; [reflexivity|]. simpl.
  split; [done|]. split; [rewrite length_take; lia|].
  split; [by intros x1 x2 x3 x4 x5 ->|].
  intros Htags. injection Htags as Htags. by rewrite Htags.
Qed.

Lemma output_truncated_witness :
  ∃ c, classifyUrl answersFiveLevels freshFields freshWorld
         rocqUrl rocqTitle []
       = (Ok c,
          loadPreferences answersFiveLevels
            (loadApiKey answersFiveLevels freshFields) freshWorld,
          {| persistedModel := None;
             requests := [mkRequest openRouterKey openrouter rocqPrompt] |})
    ∧ folderPath c = JString ∘ str <$> ["A"; "B"; "C"]%string
    ∧ tags c = JArray [].
Proof.
  destruct (output_truncated answersFiveLevels freshFields freshWorld
              rocqUrl rocqTitle [] openRouterKey openRouterKey fiveLevelsText
              {| persistedModel := None;
                 requests := [mkRequest openRouterKey openrouter rocqPrompt] |}
              fiveLevels
              (JString ∘ str <$> ["A"; "B"; "C"; "D"; "E"]%string))
    as (c & Hc & Hpath & _ & _ & Htags);
    [vm_compute; reflexivity | discriminate | vm_compute; reflexivity
    | vm_compute; reflexivity | discriminate | vm_compute; reflexivity
    | vm_compute; reflexivity |].
  exists c. split; [exact Hc|]. split; [exact Hpath|].
  apply Htags. vm_compute. reflexivity.
Defined.

(** * Further properties of the code *)

(** ** Trimming and sanitizing *)

Lemma drop_while_idem p (s : jstring) :
  drop_while p (drop_while p s) = drop_while p s.
Proof.
  induction s as [|c r IH]; simpl; [done|].
  destruct (p c) eqn:Hc; [done|]. simpl. by rewrite Hc.
Qed.

Lemma drop_while_head p (s : jstring) c r :
  drop_while p s = c :: r → p c = false.
Proof.
  induction s as [|a s IH]; simpl; [done|].
  destruct (p a) eqn:Ha; [done|]. by intros [= <- _].
Qed.

Lemma drop_while_app_keep p (l : jstring) c :
  p c = false → drop_while p (l ++ [c]) = drop_while p l ++ [c].
Proof.
  intros Hc. induction l as [|a l IH]; simpl; [by rewrite Hc|].
  by destruct (p a).
Qed.

Lemma drop_end_while_cons_keep p c (r : jstring) :
  p c = false → drop_end_while p (c :: r) = c :: drop_end_while p r.
Proof.
  intros Hc. unfold drop_end_while. simpl.
  rewrite (drop_while_app_keep _ _ _ Hc). by rewrite rev_app_distr.
Qed.

Lemma drop_end_while_idem p (s : jstring) :
  drop_end_while p (drop_end_while p s) = drop_end_while p s.
Proof.
  unfold drop_end_while. by rewrite rev_involutive, drop_while_idem.
Qed.

Lemma trim_idem (s : jstring) : trim (trim s) = trim s.
Proof.
  unfold trim. destruct (drop_while is_space s) as [|c r] eqn:Hs; [done|].
  pose proof (drop_while_head _ _ _ _ Hs) as Hc.
  rewrite (drop_end_while_cons_keep _ _ _ Hc). simpl. rewrite Hc.
  rewrite <- (drop_end_while_cons_keep _ _ _ Hc).
  apply drop_end_while_idem.
Qed.

Lemma filterSeen_sublist U (l : list jstring) :
  ∀ seen, filterSeen U seen l `sublist_of` l.
Proof.
  induction l as [|p l IH]; intros seen; simpl; [done|].
  destruct (decide _); [by apply sublist_cons|by apply sublist_skip].
Qed.

Lemma filterSeen_keys U (l : list jstring) :
  ∀ seen,
    NoDup (normalizeFolderName U <$> filterSeen U seen l)
    ∧ ∀ k, k ∈ normalizeFolderName U <$> filterSeen U seen l → k ∉ seen.
Proof.
  induction l as [|p l IH]; intros seen; simpl.
  - split; [apply NoDup_nil_2|]. intros k Hk. by apply elem_of_nil in Hk.
  - destruct (decide _) as [Hin|Hout]; [apply IH|].
    destruct (IH ({[normalizeFolderName U p]} ∪ seen)) as [Hd Hs].
    simpl. split.
    + apply NoDup_cons. split; [|done]. intros Hk. apply Hs in Hk. set_solver.
    + intros k [->|Hk]%elem_of_cons; [done|]. apply Hs in Hk. set_solver.
Qed.

Lemma filterSeen_fixed U (l : list jstring) :
  ∀ seen,
    NoDup (normalizeFolderName U <$> l) →
    (∀ k, k ∈ normalizeFolderName U <$> l → k ∉ seen) →
    filterSeen U seen l = l.
Proof.
  induction l as [|p l IH]; intros seen Hd Hs; simpl; [done|].
  simpl in Hd. apply NoDup_cons in Hd as [Hp Hd].
  rewrite decide_False by (apply Hs; simpl; constructor).
  f_equal. apply IH; [done|]. intros k Hk [Hkp|Hks]%elem_of_union.
  - apply elem_of_singleton in Hkp as ->. done.
  - apply (Hs k); [simpl; by constructor|done].
Qed.

Lemma sanitize_segments U (path : list jstring) :
  Forall (λ p, p ≠ [] ∧ trim p = p) (sanitizeFolderPath U path).
Proof.
  unfold sanitizeFolderPath. apply Forall_forall. intros p Hp.
  eapply elem_of_sublist in Hp; [|apply filterSeen_sublist].
  apply list_elem_of_filter in Hp as [Hlen Hp].
  split; [by apply js_length_pos|].
  apply list_elem_of_In, in_map_iff in Hp as (q & <- & _). apply trim_idem.
Qed.

(** X1: every segment of a sanitized path is trimmed and not empty, no
    two of them have the same canonical key, and they are segments of
    the given path, trimmed, in their order. *)
Theorem sanitize_yields_clean_path U (path : list jstring) :
  let r := sanitizeFolderPath U path in
  Forall (λ p, p ≠ [] ∧ trim p = p) r
  ∧ NoDup (normalizeFolderName U <$> r)
  ∧ r `sublist_of` map trim path.
Proof.
  split; [apply sanitize_segments|]. unfold sanitizeFolderPath. split.
  - apply filterSeen_keys.
  - etrans; [apply filterSeen_sublist|apply sublist_filter].
Qed.

(** X2: sanitizing a sanitized path changes nothing. *)
Theorem sanitize_idempotent U (path : list jstring) :
  sanitizeFolderPath U (sanitizeFolderPath U path) = sanitizeFolderPath U path.
Proof.
  pose proof (sanitize_segments U path) as Hok.
  assert (NoDup (normalizeFolderName U <$> sanitizeFolderPath U path)) as Hd
    by (unfold sanitizeFolderPath; apply filterSeen_keys).
  set (r := sanitizeFolderPath U path) in *. unfold sanitizeFolderPath.
  assert (map trim r = r) as ->.
  { clearbody r. clear Hd. induction Hok as [|p l [_ Hp] _ IH]; simpl; [done|].
    by rewrite Hp, IH. }
  assert (filter (λ p : jstring, 0 < js_length p) r = r) as ->.
  { clearbody r. clear Hd. induction Hok as [|p l [Hp _] _ IH]; [done|].
    rewrite filter_cons_True by (by apply js_length_pos). by rewrite IH. }
  apply filterSeen_fixed; [done|set_solver].
Qed.

(** The loop that keeps the store agrees with the loop that does not. *)
Lemma ensureLoopK_Some U (path : list jstring) :
  ∀ cur prev (s : Store) i s',
    ensureLoop U path cur prev s = Some (i, s')
    ↔ ensureLoopK U path cur prev s = (Some i, s').
Proof.
  induction path as [|raw rest IH]; intros cur prev s i s'; simpl.
  - split; intros [= <- <-]; done.
  - destruct (decide _); [apply IH|].
    destruct (findFolder U s cur raw) as [[f|]|]; simpl; [apply IH| |done].
    destruct (create s cur (folderTitle raw)) as [[nw s1]|]; simpl;
      [apply IH|done].
Qed.

Lemma ensureLoopK_None U (path : list jstring) :
  ∀ cur prev (s : Store),
    ensureLoop U path cur prev s = None
    ↔ (ensureLoopK U path cur prev s).1 = None.
Proof.
  induction path as [|raw rest IH]; intros cur prev s; simpl.
  - done.
  - destruct (decide _); [apply IH|].
    destruct (findFolder U s cur raw) as [[f|]|]; simpl; [apply IH| |done].
    destruct (create s cur (folderTitle raw)) as [[nw s1]|]; simpl;
      [apply IH|done].
Qed.

Lemma ensureLoopK_appends U (path : list jstring) :
  ∀ cur prev (s : Store),
    ∃ added, (ensureLoopK U path cur prev s).2 = s ++ added
      ∧ (length added ≤ length path)%nat
      ∧ Forall (madeFor path) added.
Proof.
  induction path as [|raw rest IH]; intros cur prev s; simpl.
  - exists []; rewrite app_nil_r; split; [done|]; split; [simpl; lia|constructor].
  - assert (∀ added, Forall (madeFor rest) added →
                      Forall (madeFor (raw :: rest)) added) as Hmono.
    { intros added H. eapply Forall_impl; [exact H|]. intros n (Hu & r & Hr & Ht).
      split; [done|]. exists r. split; [by constructor|done]. }
    assert (∀ cur' prev' s',
      ∃ added, (ensureLoopK U rest cur' prev' s').2 = s' ++ added
        ∧ (length added ≤ S (length rest))%nat
        ∧ Forall (madeFor (raw :: rest)) added) as IH'.
    { intros cur' prev' s'. destruct (IH cur' prev' s') as (a & E & L & F).
      exists a. split; [done|]. split; [lia|by apply Hmono]. }
    destruct (decide _); [apply IH'|].
    destruct (findFolder U s cur raw) as [[f|]|]; simpl; [apply IH'| |].
    2:{ exists []; rewrite app_nil_r; split; [done|]; split; [simpl; lia|constructor]. }
    unfold create. destruct (lookupNode s cur) as [x|]; simpl.
    2:{ exists []; rewrite app_nil_r; split; [done|]; split; [simpl; lia|constructor]. }
    destruct (has_url (url x)); simpl.
    { exists []; rewrite app_nil_r; split; [done|]; split; [simpl; lia|constructor]. }
    match goal with |- context [ensureLoopK U rest ?c ?p ?t] =>
      destruct (IH c p t) as (a & E & L & F) end.
    eexists (_ :: a). rewrite E, <- (assoc_L (++)). split; [done|].
    split; [simpl; lia|]. apply Forall_cons. split; [|by apply Hmono].
    split; [done|]. exists raw. split; [constructor|done].
Qed.

(** X3: [ensureFolderPath] never removes or changes a node: whether it
    returns or rejects, the store it leaves is the old one followed by
    new folders, at most one for each segment, each titled after a
    segment of the path. *)
Theorem ensure_only_adds_folders U (path : list jstring) (s : Store) :
  ∃ added,
    (ensureFolderPathK U path s).2 = s ++ added
    ∧ (length added ≤ length path)%nat
    ∧ Forall (madeFor path) added
    ∧ match ensureFolderPath U path s with
      | Some (i, s') => s' = s ++ added
      | None => True
      end.
Proof.
  unfold ensureFolderPathK, ensureFolderPath.
  destruct (ensureLoopK_appends U path 1 None s) as (added & E & L & F).
  exists added. split; [done|]. split; [done|]. split; [done|].
  destruct (ensureLoop U path 1 None s) as [[i s']|] eqn:Hrun; [|done].
  apply ensureLoopK_Some in Hrun. rewrite Hrun in E. done.
Qed.

Lemma keyAfter_cons U raw (rest : list jstring) prev :
  keyAfter U (raw :: rest) prev
  = keyAfter U rest (Some (normalizeFolderName U raw)).
Proof. unfold keyAfter. rewrite last_cons. by destruct (last rest). Qed.

Lemma ensureLoop_app U (p q : list jstring) :
  ∀ cur prev (s : Store),
    ensureLoop U (p ++ q) cur prev s
    = '(i, s') ← ensureLoop U p cur prev s;
      ensureLoop U q i (keyAfter U p prev) s'.
Proof.
  induction p as [|raw rest IH]; intros cur prev s; [done|].
  rewrite keyAfter_cons. simpl.
  destruct (decide (prev = Some (normalizeFolderName U raw))) as [->|Hne];
    [apply IH|].
  destruct (findFolder U s cur raw) as [[f|]|]; simpl; [apply IH| |done].
  destruct (create s cur (folderTitle raw)) as [[nw s1]|]; simpl;
    [apply IH|done].
Qed.

(** X4: resolving a path resolves its front part and then walks the rest
    from the folder reached, in the store reached. *)
Theorem ensure_resolves_prefix_first U (p q : list jstring) (s : Store) :
  ensureFolderPath U (p ++ q) s
  = '(i, s') ← ensureFolderPath U p s;
    ensureLoop U q i (keyAfter U p None) s'.
Proof. apply ensureLoop_app. Qed.

Lemma ensureLoop_repeat U a b (rest : list jstring) :
  normalizeFolderName U a = normalizeFolderName U b →
  ∀ cur prev (s : Store),
    ensureLoop U (a :: b :: rest) cur prev s
    = ensureLoop U (a :: rest) cur prev s.
Proof.
  intros Hk cur prev s.
  change (ensureLoop U (a :: b :: rest) cur prev s)
    with (ensureLoop U ([a] ++ b :: rest) cur prev s).
  change (ensureLoop U (a :: rest) cur prev s)
    with (ensureLoop U ([a] ++ rest) cur prev s).
  rewrite !ensureLoop_app.
  destruct (ensureLoop U [a] cur prev s) as [[i s']|]; [|done]. simpl.
  unfold keyAfter. simpl. rewrite <- Hk. by rewrite decide_True.
Qed.

(** X5: a segment that repeats the canonical key of the segment before
    it is passed over, wherever it stands in the path. *)
Theorem ensure_skips_repeated_segment U (pre : list jstring) a b
    (rest : list jstring) (s : Store) :
  normalizeFolderName U a = normalizeFolderName U b →
  ensureFolderPath U (pre ++ a :: b :: rest) s
  = ensureFolderPath U (pre ++ a :: rest) s.
Proof.
  intros Hk. unfold ensureFolderPath. rewrite !ensureLoop_app.
  destruct (ensureLoop U pre 1 None s) as [[i s']|]; [|done]. simpl.
  by apply ensureLoop_repeat.
Qed.

Lemma ensure_skips_repeated_segment_witness :
  normalizeFolderName BasicLatin (str "Coding")
  = normalizeFolderName BasicLatin (128187 :: str " coding")
  ∧ ensureFolderPath BasicLatin
      [str "Coding"; 128187 :: str " coding"; str "HTML"] chromeStore
    = ensureFolderPath BasicLatin [str "Coding"; str "HTML"] chromeStore.
Proof.
  split; [vm_compute; reflexivity|].
  apply (ensure_skips_repeated_segment BasicLatin [] (str "Coding")
           (128187 :: str " coding") [str "HTML"] chromeStore).
  vm_compute. reflexivity.
Defined.

Lemma drop_while_slash_keep (t : jstring) :
  head t ≠ Some 47 → drop_while is_slash t = t.
Proof.
  destruct t as [|c r]; simpl; [done|]. intros Hc.
  unfold is_slash. destruct (N.eqb_spec c 47) as [->|]; [done|done].
Qed.

Lemma drop_end_while_slash_keep (t : jstring) :
  last t ≠ Some 47 → drop_end_while is_slash t = t.
Proof.
  induction t as [|c r _] using rev_ind; [done|]. rewrite last_snoc.
  intros Hc. unfold drop_end_while. rewrite rev_app_distr. simpl.
  unfold is_slash. destruct (N.eqb_spec c 47) as [->|]; [done|].
  simpl. by rewrite rev_involutive.
Qed.

Lemma plainSegment_keyStable U (r : jstring) : plainSegment U r → keyStable U r.
Proof.
  intros [[Hh Hl] Hlow]. unfold keyStable, folderTitle.
  rewrite (drop_while_slash_keep _ Hh), (drop_end_while_slash_keep _ Hl).
  unfold normalizeFolderName. by rewrite Hlow, trim_idem.
Qed.

(** X6: after [ensure] has returned for a path of plain segments, [ensure]
    for that path, or for any path with the same canonical keys, returns
    the same folder and leaves the store as it is. *)
Theorem ensure_idempotent_on_plain_paths U (path path2 : list jstring)
    (s : Store) i s' :
  Forall (plainSegment U) path →
  normalizeFolderName U <$> path2 = normalizeFolderName U <$> path →
  ensureFolderPath U path s = Some (i, s') →
  ensureFolderPath U path s' = Some (i, s')
  ∧ ensureFolderPath U path2 s' = Some (i, s').
Proof.
  intros Hplain Hk Hrun.
  assert (Forall (keyStable U) path) as Hst.
  { eapply Forall_impl; [exact Hplain|]. apply plainSegment_keyStable. }
  split; eapply ensure_converges; eauto.
Qed.

Lemma ensure_idempotent_on_plain_paths_witness :
  Forall (plainSegment BasicLatin) [str "Coding"; str "Guides"; str "HTML"]
  ∧ ∃ s', ensureFolderPath BasicLatin
            [str "Coding"; str "Guides"; str "HTML"] chromeStore = Some (8, s')
      ∧ ensureFolderPath BasicLatin
          [str "Coding"; str "Guides"; str "HTML"] s' = Some (8, s')
      ∧ ensureFolderPath BasicLatin
          [128187 :: str " coding"; str "GUIDES"; str "html "] s' = Some (8, s').
Proof.
  assert (Forall (plainSegment BasicLatin)
            [str "Coding"; str "Guides"; str "HTML"]) as Hplain.
  { repeat (constructor; [by vm_compute|]). constructor. }
  split; [exact Hplain|]. eexists. split; [vm_compute; reflexivity|].
  apply (ensure_idempotent_on_plain_paths BasicLatin
           [str "Coding"; str "Guides"; str "HTML"]
           [128187 :: str " coding"; str "GUIDES"; str "html "] chromeStore);
    [exact Hplain | vm_compute; reflexivity | vm_compute; reflexivity].
Defined.

(** X7: in a store with distinct identifiers that holds the folder ['1'],
    [ensureFolderPath] does not reject: it returns a folder of the store
    it leaves, whose identifiers are distinct again. *)
Theorem ensure_returns_a_folder U (path : list jstring) (s : Store) :
  NoDup (id <$> s) → folderAt s 1 →
  ∃ i s', ensureFolderPath U path s = Some (i, s')
    ∧ folderAt s' i ∧ NoDup (id <$> s').
Proof.
  intros Hd H1. destruct (ensureLoop_total U path 1 None s Hd H1)
    as (i & s' & H & Hd' & Hi). eauto.
Qed.

Lemma ensure_returns_a_folder_witness :
  NoDup (id <$> chromeStore) ∧ folderAt chromeStore 1
  ∧ ∃ i s', ensureFolderPath BasicLatin [str "News"; str "World"] chromeStore
            = Some (i, s')
      ∧ folderAt s' i ∧ NoDup (id <$> s').
Proof.
  assert (NoDup (id <$> chromeStore)) as Hd.
  { apply (bool_decide_unpack (NoDup (id <$> chromeStore))). vm_compute. exact I. }
  assert (folderAt chromeStore 1) as H1.
  { exists (folderNode 1 (Some 0) "Bookmarks bar"). split; reflexivity. }
  split; [exact Hd|]. split; [exact H1|].
  exact (ensure_returns_a_folder BasicLatin [str "News"; str "World"]
           chromeStore Hd H1).
Defined.

(** In a ranked store the subtree of a node is the same for any fuel
    from its rank on. *)
Lemma subTree_at_rank (rank : StoreNode → nat) (s : Store) :
  ranked rank s →
  ∀ extra n, n ∈ s → subTree (rank n + extra) s n = subTree (rank n) s n.
Proof.
  intros Hr extra n Hn. induction extra as [|k IH]; [by rewrite Nat.add_0_r|].
  rewrite Nat.add_succ_r, <- IH.
  apply (subTree_fuel_stable rank); [done..|lia].
Qed.

Lemma subTree_any_fuel (rank : StoreNode → nat) (s : Store) fuel n :
  ranked rank s → n ∈ s → (rank n ≤ fuel)%nat →
  subTree fuel s n = subTree (rank n) s n.
Proof.
  intros Hr Hn Hle. replace fuel with (rank n + (fuel - rank n))%nat by lia.
  by apply subTree_at_rank.
Qed.

Lemma bind_map_ext {A B C} (f : A → B) (g : B → list C) (h : A → list C)
    (l : list A) :
  (∀ x, x ∈ l → g (f x) = h x) → map f l ≫= g = l ≫= h.
Proof.
  induction l as [|x l IH]; intros H; [done|].
  change (map f (x :: l)) with (f x :: map f l).
  rewrite !bind_cons. rewrite H by constructor. f_equal. apply IH.
  intros y Hy. apply H. by constructor.
Qed.

(** The bookmarks below a folder are the bookmarks below its children. *)
Lemma collectBookmarks_folder (rank : StoreNode → nat) (s : Store) n :
  ranked rank s → n ∈ s → has_url (url n) = false →
  collectBookmarks (subTree (rank n) s n)
  = childrenOf s (id n) ≫= (λ c, collectBookmarks (subTree (rank c) s c)).
Proof.
  intros Hr Hn Hu. destruct (rank n) as [|f] eqn:Hrank; simpl; rewrite Hu; simpl.
  - destruct (childrenOf s (id n)) as [|c l] eqn:Hc; [done|].
    assert (rank c < rank n)%nat; [|lia].
    apply Hr; [done|]. rewrite Hc. constructor.
  - apply bind_map_ext. intros c Hc. f_equal.
    apply (subTree_any_fuel rank); [done| |].
    + by apply list_elem_of_filter in Hc as [_ ?].
    + specialize (Hr n c Hn Hc). lia.
Qed.

Lemma lookupNode_folderAt (s : Store) p :
  folderAt s p → ∃ P, P ∈ s ∧ id P = p ∧ has_url (url P) = false.
Proof.
  intros (P & Hl & Hu). apply lookupNode_Some in Hl as [HP Hid]. eauto.
Qed.

(** Whatever is collected below a node of a closed, ranked store is
    collected by [getAllBookmarks]. *)
Lemma collected_below_reaches_top (rank : StoreNode → nat) (s : Store) x :
  closed s → ranked rank s → (∀ n, n ∈ s → (rank n ≤ length s)%nat) →
  ∀ k n, n ∈ s → (length s - rank n ≤ k)%nat →
    x ∈ collectBookmarks (subTree (rank n) s n) → x ∈ getAllBookmarks s.
Proof.
  intros Hc Hr Hb. induction k as [|k IH]; intros n Hn Hk Hx.
  all: destruct (parentId n) as [p|] eqn:Hp.
  all: try (destruct (lookupNode_folderAt s p (Hc n p Hn Hp)) as (P & HP & Hid & Hu);
            assert (n ∈ childrenOf s (id P)) as Hchild
              by (apply list_elem_of_filter; split; [by rewrite Hid|done]);
            pose proof (Hr P n HP Hchild) as Hlt; pose proof (Hb P HP) as HbP).
  - lia.
  - unfold getAllBookmarks, getTree. apply list_elem_of_bind.
    exists (subTree (length s) s n). split.
    + by rewrite (subTree_any_fuel rank) by auto.
    + apply list_elem_of_In, in_map, list_elem_of_In, list_elem_of_filter. done.
  - apply (IH P HP); [lia|]. rewrite (collectBookmarks_folder rank) by done.
    apply list_elem_of_bind. eauto.
  - unfold getAllBookmarks, getTree. apply list_elem_of_bind.
    exists (subTree (length s) s n). split.
    + by rewrite (subTree_any_fuel rank) by auto.
    + apply list_elem_of_In, in_map, list_elem_of_In, list_elem_of_filter. done.
Qed.

(** What is collected below a store node is a bookmark of the store. *)
Lemma collectBookmarks_sound (s : Store) (fuel : nat) :
  ∀ n t, n ∈ s → t ∈ collectBookmarks (subTree fuel s n) →
    ∃ m, m ∈ s ∧ has_url (url m) = true
         ∧ t = TreeNode (id m) (title m) (url m) None.
Proof.
  induction fuel as [|fuel IH]; intros n t Hn Ht; simpl in Ht.
  - destruct (has_url (url n)) eqn:Hu; simpl in Ht.
    + apply list_elem_of_singleton in Ht as ->. eauto.
    + by apply elem_of_nil in Ht.
  - destruct (has_url (url n)) eqn:Hu; simpl in Ht.
    + apply list_elem_of_singleton in Ht as ->. eauto.
    + apply list_elem_of_bind in Ht as (y & Hty & Hy).
      apply list_elem_of_In, in_map_iff in Hy as (k & <- & Hk).
      apply list_elem_of_In, list_elem_of_filter in Hk as [_ Hk]. eauto.
Qed.

(** X8: in a store without cycles where every parent is a folder of the
    store, [getAllBookmarks] returns the nodes with a url and nothing
    else: every bookmark of the store is in the result, and every node
    of the result is a bookmark of the store, without children. *)
Theorem getAllBookmarks_are_the_bookmarks (rank : StoreNode → nat)
    (s : Store) (t : BookmarkTreeNode) :
  closed s → ranked rank s → (∀ n, n ∈ s → (rank n ≤ length s)%nat) →
  t ∈ getAllBookmarks s
  ↔ ∃ m, m ∈ s ∧ has_url (url m) = true
         ∧ t = TreeNode (id m) (title m) (url m) None.
Proof.
  intros Hc Hr Hb. split.
  - unfold getAllBookmarks, getTree. intros Ht.
    apply list_elem_of_bind in Ht as (y & Hty & Hy).
    apply list_elem_of_In, in_map_iff in Hy as (k & <- & Hk).
    apply list_elem_of_In, list_elem_of_filter in Hk as [_ Hk].
    by apply (collectBookmarks_sound s (length s) k).
  - intros (m & Hm & Hu & ->).
    apply (collected_below_reaches_top rank s _ Hc Hr Hb (length s) m Hm); [lia|].
    destruct (rank m); simpl; rewrite Hu; simpl; constructor.
Qed.

Lemma chromeStore_ranked : ranked chromeRank chromeStore.
Proof.
  intros n c Hn Hc. unfold chromeStore in Hn.
  repeat (apply elem_of_cons in Hn as [->|Hn]);
    try (by apply elem_of_nil in Hn);
    vm_compute in Hc;
    repeat (apply elem_of_cons in Hc as [->|Hc]);
    try (by apply elem_of_nil in Hc); vm_compute; lia.
Qed.

Lemma chromeStore_rank_bound n :
  n ∈ chromeStore → (chromeRank n ≤ length chromeStore)%nat.
Proof.
  intros Hn. unfold chromeStore in Hn.
  repeat (apply elem_of_cons in Hn as [->|Hn]);
    try (by apply elem_of_nil in Hn); vm_compute; lia.
Qed.

Lemma chromeStore_closed : closed chromeStore.
Proof.
  intros n p Hn Hp. unfold chromeStore in Hn.
  repeat (apply elem_of_cons in Hn as [->|Hn]);
    try (by apply elem_of_nil in Hn); simpl in Hp; try done;
    injection Hp as <-; eexists; split; reflexivity.
Qed.

Lemma chromeStore_NoDup : NoDup (id <$> chromeStore).
Proof.
  apply (bool_decide_unpack (NoDup (id <$> chromeStore))). vm_compute. exact I.
Qed.

Lemma getAllBookmarks_are_the_bookmarks_witness :
  closed chromeStore ∧ ranked chromeRank chromeStore
  ∧ TreeNode 5 (str "Rocq") (Some (str "https://rocq-prover.org/")) None
    ∈ getAllBookmarks chromeStore.
Proof.
  split; [exact chromeStore_closed|]. split; [exact chromeStore_ranked|].
  apply (getAllBookmarks_are_the_bookmarks chromeRank chromeStore _
           chromeStore_closed chromeStore_ranked chromeStore_rank_bound).
  exists (linkNode 5 1 "Rocq" "https://rocq-prover.org/").
  split; [|split; reflexivity]. unfold chromeStore. do 4 constructor.
Defined.

Lemma Forall2_bind_both {A B C} (R : B → C → Prop) (f : A → list B)
    (g : A → list C) (l : list A) :
  (∀ x, x ∈ l → Forall2 R (f x) (g x)) → Forall2 R (l ≫= f) (l ≫= g).
Proof.
  induction l as [|x l IH]; intros H; [constructor|].
  rewrite !bind_cons. apply Forall2_app; [apply H; constructor|].
  apply IH. intros y Hy. apply H. by constructor.
Qed.

Lemma folderPaths_match (s : Store) (fuel : nat) :
  ∀ n par, n ∈ s →
    Forall2 (pathOfFolder s) (folderPaths par (subTree fuel s n))
            (folderIds (subTree fuel s n)).
Proof.
  induction fuel as [|fuel IH]; intros n par Hn; simpl;
    (destruct (has_url (url n)) eqn:Hu; simpl; [constructor|]);
    (constructor;
     [exists n; split; [done|]; split; [done|]; split; [done|];
      destruct par; [by left|right; eauto]|]).
  - constructor.
  - apply Forall2_bind_both. intros x Hx.
    apply list_elem_of_In, in_map_iff in Hx as (k & <- & Hk).
    apply list_elem_of_In, list_elem_of_filter in Hk as [_ Hk]. by apply IH.
Qed.

(** X9: [getExistingFolders] lists one path for each folder below the
    bookmarks bar, in the order of the tree, and the path of a folder is
    its title or ends with a slash and its title; nodes with a url are
    passed over, and nothing is listed when ['1'] cannot be read. *)
Theorem getExistingFolders_lists_each_folder (s : Store) :
  match lookupNode s 1 with
  | Some bar =>
      Forall2 (pathOfFolder s) (getExistingFolders s)
              (tail (folderIds (subTree (length s) s bar)))
  | None => getExistingFolders s = []
  end.
Proof.
  unfold getExistingFolders, getSubTree.
  destruct (lookupNode s 1) as [bar|] eqn:Hl; [|done]. simpl.
  apply lookupNode_Some in Hl as [Hbar _].
  destruct (length s) as [|fuel]; simpl;
    (destruct (has_url (url bar)); simpl; [constructor|]); [constructor|].
  apply Forall2_bind_both. intros x Hx.
  apply list_elem_of_In, in_map_iff in Hx as (k & <- & Hk).
  apply list_elem_of_In, list_elem_of_filter in Hk as [_ Hk].
  by apply folderPaths_match.
Qed.

Lemma ensureLoopK_NoDup U (path : list jstring) :
  ∀ cur prev (s : Store),
    NoDup (id <$> s) → NoDup (id <$> (ensureLoopK U path cur prev s).2).
Proof.
  induction path as [|raw rest IH]; intros cur prev s Hd; simpl; [done|].
  destruct (decide _); [by apply IH|].
  destruct (findFolder U s cur raw) as [[f|]|]; simpl; [by apply IH| |done].
  unfold create. destruct (lookupNode s cur) as [x|]; simpl; [|done].
  destruct (has_url (url x)); simpl; [done|]. apply IH.
  rewrite fmap_app. apply NoDup_app. split; [done|].
  split; [|apply NoDup_singleton].
  intros j Hj Hj'. apply list_elem_of_singleton in Hj'. simpl in Hj'. subst j.
  apply list_elem_of_fmap in Hj as (m & Hm & Hin).
  pose proof (freshId_above s m Hin). lia.
Qed.

(** X10: when [createBookmark] returns, the store is the old one, then the
    folders [ensureFolderPath] made for the sanitized path, then the new
    bookmark, which has the given title and url and is the last child of
    the folder [ensureFolderPath] returned. *)
Theorem createBookmark_places_bookmark U validUrl (u t : jstring)
    (path : list jstring) (s : Store) n s' :
  createBookmark U validUrl u t path s = (Some n, s') →
  ∃ folderId added,
    ensureFolderPath U (sanitizeFolderPath U path) s = Some (folderId, s ++ added)
    ∧ Forall (madeFor (sanitizeFolderPath U path)) added
    ∧ s' = (s ++ added) ++ [n]
    ∧ n = {| id := freshId (s ++ added); parentId := Some folderId;
             title := t; url := Some u |}
    ∧ validUrl u = true
    ∧ last (childrenOf s' folderId) = Some n.
Proof.
  unfold createBookmark. intros H.
  destruct (ensureLoopK_appends U (sanitizeFolderPath U path) 1 None s)
    as (added & E & _ & F).
  fold (ensureFolderPathK U (sanitizeFolderPath U path) s) in E.
  destruct (ensureFolderPathK U (sanitizeFolderPath U path) s)
    as [[folderId|] s1] eqn:HK; [|done]. simpl in E. subst s1.
  apply ensureLoopK_Some in HK. fold (ensureFolderPath U (sanitizeFolderPath U path) s) in HK.
  unfold createLink in H.
  destruct (lookupNode (s ++ added) folderId) as [p|]; [|done].
  destruct (has_url (url p)); [done|].
  destruct (validUrl u) eqn:Hv; [|done]. injection H as <- <-.
  exists folderId, added. repeat (split; [done|]).
  rewrite childrenOf_app. unfold childrenOf at 2.
  rewrite filter_cons_True by done. rewrite filter_nil. apply last_snoc.
Qed.

Lemma createBookmark_places_bookmark_witness :
  ∃ n s', createBookmark BasicLatin nonEmptyUrl (str "https://example.org/")
            (str "Example") [str " News "; str "World"] chromeStore
          = (Some n, s')
    ∧ parentId n = Some 7
    ∧ last (childrenOf s' 7) = Some n
    ∧ length s' = 7%nat.
Proof.
  eexists _, _. split; [vm_compute; reflexivity|].
  destruct (createBookmark_places_bookmark BasicLatin nonEmptyUrl
              (str "https://example.org/") (str "Example")
              [str " News "; str "World"] chromeStore _ _
              ltac:(vm_compute; reflexivity))
    as (folderId & added & Hens & _ & _ & Hn & _ & Hlast).
  vm_compute in Hens. injection Hens as <- _.
  split; [reflexivity|]. split; [exact Hlast|reflexivity].
Defined.

(** X11: with a path that holds nothing but blank segments, or no segment,
    [createBookmark] makes no folder: the bookmark is created directly
    in ['1'], and when that is rejected the store stays as it was. *)
Theorem createBookmark_blank_path U validUrl (u t : jstring)
    (path : list jstring) (s : Store) :
  Forall (Forall (λ c, is_space c = true)) path →
  createBookmark U validUrl u t path s
  = match createLink validUrl s 1 t u with
    | Some (n, s') => (Some n, s')
    | None => (None, s)
    end.
Proof.
  intros H. unfold createBookmark.
  assert (sanitizeFolderPath U path = []) as ->; [|done].
  unfold sanitizeFolderPath.
  assert (filter (λ p : jstring, 0 < js_length p) (map trim path) = []) as ->;
    [|done].
  induction H as [|p l Hp _ IH]; [done|]. simpl.
  rewrite (trim_whitespace _ Hp). rewrite filter_cons_False; [done|].
  simpl. lia.
Qed.

Lemma createBookmark_blank_path_witness :
  Forall (Forall (λ c, is_space c = true)) [str "  "; []]
  ∧ createBookmark BasicLatin nonEmptyUrl (str "https://example.org/")
      (str "Example") [str "  "; []] chromeStore
    = (Some {| id := 6; parentId := Some 1; title := str "Example";
               url := Some (str "https://example.org/") |},
       chromeStore ++ [{| id := 6; parentId := Some 1; title := str "Example";
                          url := Some (str "https://example.org/") |}]).
Proof.
  assert (Forall (Forall (λ c, is_space c = true)) [str "  "; []]) as H
    by (repeat constructor).
  split; [exact H|].
  rewrite (createBookmark_blank_path BasicLatin nonEmptyUrl _ _ _ chromeStore H).
  reflexivity.
Defined.

Lemma moved_NoDup (s1 : Store) i n n' :
  lookupNode s1 i = Some n → id n' = id n → NoDup (id <$> s1) →
  NoDup (id <$> filter (λ m, id m ≠ i) s1 ++ [n']).
Proof.
  intros Hn Hid Hd. rewrite fmap_app. apply NoDup_app.
  split; [|split; [|apply NoDup_singleton]].
  - eapply sublist_NoDup; [exact Hd|]. apply fmap_sublist, sublist_filter.
  - intros j Hj Hj'. apply list_elem_of_singleton in Hj'. simpl in Hj'.
    apply list_elem_of_fmap in Hj as (m & -> & Hm).
    apply list_elem_of_filter in Hm as [Hne _].
    apply lookupNode_Some in Hn as [_ Hi]. congruence.
Qed.

(** What [moveBookmark] has done when it returns. *)
Lemma moveBookmark_shape U (i : N) (path : list jstring)
    (s : Store) n' s' :
  moveBookmark U i path s = (Some n', s') →
  ∃ folderId added n,
    ensureFolderPath U (sanitizeFolderPath U path) s = Some (folderId, s ++ added)
    ∧ lookupNode (s ++ added) i = Some n
    ∧ n' = {| id := id n; parentId := Some folderId;
              title := title n; url := url n |}
    ∧ s' = filter (λ m, id m ≠ i) (s ++ added) ++ [n'].
Proof.
  unfold moveBookmark. intros H.
  destruct (ensureLoopK_appends U (sanitizeFolderPath U path) 1 None s)
    as (added & E & _ & F).
  fold (ensureFolderPathK U (sanitizeFolderPath U path) s) in E.
  destruct (ensureFolderPathK U (sanitizeFolderPath U path) s)
    as [[folderId|] s1] eqn:HK; [|done]. simpl in E. subst s1.
  apply ensureLoopK_Some in HK.
  fold (ensureFolderPath U (sanitizeFolderPath U path) s) in HK.
  unfold move in H.
  destruct (lookupNode (s ++ added) i) as [n|] eqn:Hn; [|done].
  destruct (lookupNode (s ++ added) folderId) as [p|]; [|done].
  destruct (has_url (url p)); [done|].
  destruct (bool_decide _); [done|]. injection H as <- <-.
  by exists folderId, added, n.
Qed.

Lemma ensured_NoDup U (path : list jstring) (s : Store) i s' :
  ensureFolderPath U path s = Some (i, s') →
  NoDup (id <$> s) → NoDup (id <$> s').
Proof.
  intros Hens Hd.
  pose proof (ensureLoopK_NoDup U path 1 None s Hd) as H.
  apply ensureLoopK_Some in Hens. by rewrite Hens in H.
Qed.

(** X12: when [moveBookmark] returns, exactly one node has moved: it keeps
    its identifier, title and url, and is now the last child of the
    folder [ensureFolderPath] returned; every other node of the store is
    still there, unchanged, and distinct identifiers stay distinct. *)
Theorem moveBookmark_moves_one_node U (i : N) (path : list jstring)
    (s : Store) n' s' :
  moveBookmark U i path s = (Some n', s') →
  ∃ folderId added n,
    ensureFolderPath U (sanitizeFolderPath U path) s = Some (folderId, s ++ added)
    ∧ lookupNode (s ++ added) i = Some n
    ∧ n' = {| id := id n; parentId := Some folderId;
              title := title n; url := url n |}
    ∧ s' = filter (λ m, id m ≠ i) (s ++ added) ++ [n']
    ∧ last (childrenOf s' folderId) = Some n'
    ∧ (∀ m, m ∈ s → id m ≠ i → m ∈ s')
    ∧ (NoDup (id <$> s) → NoDup (id <$> s')).
Proof.
  intros H. destruct (moveBookmark_shape U i path s n' s' H)
    as (folderId & added & n & Hens & Hn & Hn' & Hs').
  exists folderId, added, n. repeat (split; [done|]).
  split; [|split].
  - rewrite Hs', childrenOf_app. unfold childrenOf at 2.
    rewrite filter_cons_True by (by rewrite Hn').
    rewrite filter_nil. apply last_snoc.
  - intros m Hm Hne. rewrite Hs'. apply elem_of_app. left.
    apply list_elem_of_filter. split; [done|]. apply elem_of_app. by left.
  - intros Hd. rewrite Hs'.
    apply (moved_NoDup _ _ n); [done|by rewrite Hn'|].
    by apply (ensured_NoDup U (sanitizeFolderPath U path) s folderId).
Qed.

Lemma moveBookmark_moves_one_node_witness :
  ∃ s', moveBookmark BasicLatin 5 [str "Proof assistants"] chromeStore
        = (Some (linkNode 5 6 "Rocq" "https://rocq-prover.org/"), s')
    ∧ last (childrenOf s' 6) = Some (linkNode 5 6 "Rocq" "https://rocq-prover.org/")
    ∧ folderNode 1 (Some 0) "Bookmarks bar" ∈ s'
    ∧ NoDup (id <$> s').
Proof.
  eexists. split; [vm_compute; reflexivity|].
  destruct (moveBookmark_moves_one_node BasicLatin 5 [str "Proof assistants"]
              chromeStore _ _ ltac:(vm_compute; reflexivity))
    as (folderId & added & n & Hens & _ & _ & _ & Hlast & Hkeep & Hd).
  vm_compute in Hens. injection Hens as <- _.
  split; [exact Hlast|]. split; [|exact (Hd chromeStore_NoDup)].
  apply Hkeep; [|discriminate]. unfold chromeStore. do 2 constructor.
Defined.

(** ** BackgroundService *)

Lemma keepsBookmarks_refl (s : Store) : keepsBookmarks s s.
Proof. intros m Hm _. eauto. Qed.

Lemma keepsBookmarks_trans (s1 s2 s3 : Store) :
  keepsBookmarks s1 s2 → keepsBookmarks s2 s3 → keepsBookmarks s1 s3.
Proof.
  intros H12 H23 m Hm Hu. destruct (H12 m Hm Hu) as (m2 & Hm2 & Hi & Ht & Hurl).
  destruct (H23 m2 Hm2) as (m3 & Hm3 & Hi3 & Ht3 & Hurl3); [by rewrite Hurl|].
  exists m3. repeat split; congruence.
Qed.

Lemma keepsBookmarks_app (s added : Store) : keepsBookmarks s (s ++ added).
Proof. intros m Hm _. exists m. split; [apply elem_of_app; by left|done]. Qed.

(** The sweep calls [remove] on folders of the store only. *)
Lemma removeEmptyFolders_sweeps (s : Store) :
  ∃ ids,
    (∀ i, i ∈ ids → ∃ m, m ∈ s ∧ id m = i ∧ has_url (url m) = false)
    ∧ sweeps ids (sweepStart s) (removeEmptyFolders s).
Proof.
  unfold removeEmptyFolders, getTree. fold (sweepStart s).
  destruct (filter _ s) as [|root rest] eqn:Hroots; simpl.
  - exists []. split; [set_solver|apply sweeps_refl].
  - exists (folderIds (subTree (length s) s root)). split.
    + intros i. apply subTree_folderIds.
      assert (root ∈ filter (λ n, parentId n = None) s) as Hr
        by (rewrite Hroots; set_solver).
      by apply list_elem_of_filter in Hr as [_ ?].
    + apply traverseAndRemove_sweeps.
Qed.

Lemma removeEmptyFolders_keeps (s : Store) :
  NoDup (id <$> s) →
  keepsBookmarks s (store (removeEmptyFolders s))
  ∧ NoDup (id <$> store (removeEmptyFolders s))
  ∧ (length (store (removeEmptyFolders s))
     + removedCount (removeEmptyFolders s))%nat = length s.
Proof.
  intros Hd. destruct (removeEmptyFolders_sweeps s)
    as (ids & Hids & (new & E & I & K & S & D)).
  simpl in *. destruct (D Hd) as [Hd' L]. split; [|split; [done|lia]].
  intros m Hm Hu. exists m. split; [|done]. apply K; [done|].
  intros Hc. destruct (I _ Hc) as [Hin _].
  destruct (Hids _ Hin) as (f & Hf & Hfi & Hfu).
  assert (m = f) as -> by (apply (NoDup_id_inj s); congruence). congruence.
Qed.

Lemma moveBookmark_rejected U i (path : list jstring) (s s' : Store) :
  moveBookmark U i path s = (None, s') →
  s' = (ensureFolderPathK U (sanitizeFolderPath U path) s).2.
Proof.
  unfold moveBookmark.
  destruct (ensureFolderPathK U (sanitizeFolderPath U path) s)
    as [[folderId|] s1]; simpl; [|by intros [= <-]].
  destruct (move s1 i folderId) as [[n s2]|]; [done|by intros [= <-]].
Qed.

Lemma moveBookmark_keeps U i (path : list jstring) (s : Store) :
  NoDup (id <$> s) →
  keepsBookmarks s (moveBookmark U i path s).2
  ∧ NoDup (id <$> (moveBookmark U i path s).2).
Proof.
  intros Hd. destruct (moveBookmark U i path s) as [[n'|] s'] eqn:Hmove; simpl.
  - destruct (moveBookmark_shape U i path s n' s' Hmove)
      as (folderId & added & n & Hens & Hn & -> & ->).
    assert (NoDup (id <$> s ++ added)) as Hd1
      by by apply (ensured_NoDup U (sanitizeFolderPath U path) s folderId).
    split; [|by apply (moved_NoDup _ _ n)]. intros m Hm Hu.
    destruct (decide (id m = i)) as [Hi|Hi].
    2:{ exists m. split; [|done]. apply elem_of_app. left.
        apply list_elem_of_filter. split; [done|]. apply elem_of_app. by left. }
    assert (lookupNode (s ++ added) (id m) = Some m) as Hm'.
    { apply lookupNode_self; [done|]. apply elem_of_app. by left. }
    rewrite Hi, Hn in Hm'. injection Hm' as ->.
    eexists. split; [apply elem_of_app; right; constructor|]. done.
  - apply moveBookmark_rejected in Hmove as ->.
    destruct (ensureLoopK_appends U (sanitizeFolderPath U path) 1 None s)
      as (added & E & _). unfold ensureFolderPathK. rewrite E.
    split; [apply keepsBookmarks_app|].
    rewrite <- E. by apply ensureLoopK_NoDup.
Qed.

Section OrganizeProofs.
Variable U : UnicodeData.
Variable envFor : nat → Env.

Lemma organizeOne_keeps total k ef b p (st : Service) :
  NoDup (id <$> bookmarks st) →
  keepsBookmarks (bookmarks st) (bookmarks (organizeOne U envFor total k ef b p st).2)
  ∧ NoDup (id <$> bookmarks (organizeOne U envFor total k ef b p st).2).
Proof.
  intros Hd. unfold organizeOne. destruct b as [bid bt bu bc].
  destruct (classifyUrl _ _ _ _ _ _) as [[res self'] w'].
  destruct res as [c|e]; simpl; [|split; [apply keepsBookmarks_refl|done]].
  destruct (stringsOf (folderPath c)) as [path|]; simpl;
    [|split; [apply keepsBookmarks_refl|done]].
  pose proof (moveBookmark_keeps U bid path (bookmarks st) Hd) as H.
  by destruct (moveBookmark U bid path (bookmarks st)) as [[n'|] s'].
Qed.

Lemma organizeEach_keeps total ef (bs : list BookmarkTreeNode) :
  ∀ k p (st : Service),
    NoDup (id <$> bookmarks st) →
    keepsBookmarks (bookmarks st)
      (bookmarks (organizeEach U envFor total ef bs k p st).2)
    ∧ NoDup (id <$> bookmarks (organizeEach U envFor total ef bs k p st).2).
Proof.
  induction bs as [|b rest IH]; intros k p st Hd; simpl.
  - split; [apply keepsBookmarks_refl|done].
  - destruct (organizeOne_keeps total k ef b p st Hd) as [K1 D1].
    destruct (organizeOne U envFor total k ef b p st) as [p' st']. simpl in *.
    destruct (IH (S k) p' st' D1) as [K2 D2].
    split; [by eapply keepsBookmarks_trans|done].
Qed.
End OrganizeProofs.

(** X13: organizing all bookmarks loses no bookmark: in a store with
    distinct identifiers, every node with a url is in the store
    afterwards under its identifier, with its title and url, whatever
    the classifier answers and whichever calls fail; and the
    identifiers stay distinct. *)
Theorem organizeAll_keeps_every_bookmark U envFor (st : Service) :
  NoDup (id <$> bookmarks st) →
  keepsBookmarks (bookmarks st) (bookmarks (organizeAllBookmarks U envFor st))
  ∧ NoDup (id <$> bookmarks (organizeAllBookmarks U envFor st)).
Proof.
  intros Hd. unfold organizeAllBookmarks.
  destruct (organizeEach_keeps U envFor (length (getAllBookmarks (bookmarks st)))
              (getExistingFolders (bookmarks st))
              (getAllBookmarks (bookmarks st)) 0 0 st Hd) as [K1 D1].
  destruct (organizeEach _ _ _ _ _ _ _ _) as [p st1]. simpl in *.
  destruct (removeEmptyFolders_keeps (bookmarks st1) D1) as (K2 & D2 & _).
  split; [by eapply keepsBookmarks_trans|done].
Qed.

Lemma sweepStore_NoDup : NoDup (id <$> sweepStore).
Proof.
  apply (bool_decide_unpack (NoDup (id <$> sweepStore))). vm_compute. exact I.
Qed.

Lemma filter_agree {A} (P Q : A → Prop) `{!∀ x, Decision (P x)}
    `{!∀ x, Decision (Q x)} (l : list A) :
  (∀ x, x ∈ l → P x ↔ Q x) → filter P l = filter Q l.
Proof.
  induction l as [|a l IH]; intros Hext; [done|].
  rewrite !filter_cons.
  rewrite IH by (intros x Hx; apply Hext; by constructor).
  assert (P a ↔ Q a) as Ha by (apply Hext; constructor).
  destruct (decide (P a)) as [Hp|Hp], (decide (Q a)) as [Hq|Hq];
    try done; tauto.
Qed.

Lemma progressTo_snoc total n :
  progressTo total 1 (S n) = progressTo total 1 n ++ [ORGANIZE_PROGRESS (S n) total].
Proof.
  unfold progressTo. rewrite seq_S, fmap_app. done.
Qed.

Section CountProofs.
Variable U : UnicodeData.
Variable envFor : nat → Env.

Lemma organizeEach_app total ef (l1 l2 : list BookmarkTreeNode) :
  ∀ k p (st : Service),
    organizeEach U envFor total ef (l1 ++ l2) k p st
    = organizeEach U envFor total ef l2 (k + length l1)
        (organizeEach U envFor total ef l1 k p st).1
        (organizeEach U envFor total ef l1 k p st).2.
Proof.
  induction l1 as [|b l1 IH]; intros k p st; simpl.
  - by rewrite Nat.add_0_r.
  - destruct (organizeOne U envFor total k ef b p st) as [p' st'].
    rewrite IH. by rewrite Nat.add_succ_r.
Qed.

Lemma organizeOne_moves total k ef b p (st : Service) :
  let r := organizeOne U envFor total k ef b p st in
  if moves U envFor k ef b st
  then r.1 = S p ∧ sent r.2 = sent st ++ [ORGANIZE_PROGRESS (S p) total]
  else r.1 = p ∧ sent r.2 = sent st.
Proof.
  unfold organizeOne, moves. destruct b as [bid bt bu bc].
  destruct (classifyUrl _ _ _ _ _ _) as [[res self'] w'].
  destruct res as [c|e]; simpl; [|done].
  destruct (stringsOf (folderPath c)) as [path|]; simpl; [|done].
  destruct (moveBookmark U bid path (bookmarks st)) as [[n'|] s']; simpl.
  - done.
  - done.
Qed.

Lemma movedPlaces_snoc total ef (l : list BookmarkTreeNode) b (st : Service) :
  movedPlaces U envFor total ef (l ++ [b]) st
  = movedPlaces U envFor total ef l st
    ++ (if moves U envFor (length l) ef b
             (organizeEach U envFor total ef l 0 0 st).2
        then [length l] else []).
Proof.
  unfold movedPlaces. rewrite length_app. simpl length.
  rewrite Nat.add_1_r, seq_S, filter_app. f_equal.
  - apply filter_agree. intros k Hk. apply elem_of_seq in Hk as [_ Hk].
    simpl in Hk. unfold stateBefore.
    rewrite lookup_app_l by done. rewrite take_app_le by lia. done.
  - simpl. rewrite filter_cons, filter_nil. unfold stateBefore.
    rewrite list_lookup_middle by done. rewrite take_app_length. simpl.
    destruct (moves U envFor (length l) ef b _); by case_decide.
Qed.

Lemma organizeEach_counts total ef (bs : list BookmarkTreeNode) (st : Service) :
  let r := organizeEach U envFor total ef bs 0 0 st in
  let n := length (movedPlaces U envFor total ef bs st) in
  r.1 = n ∧ sent r.2 = sent st ++ progressTo total 1 n.
Proof.
  induction bs as [|b l IH] using rev_ind.
  - simpl. unfold progressTo. simpl. by rewrite app_nil_r.
  - cbv zeta in *. destruct IH as [IH1 IH2].
    rewrite organizeEach_app, movedPlaces_snoc, length_app. simpl.
    pose proof (organizeOne_moves total (length l) ef b
                  (organizeEach U envFor total ef l 0 0 st).1
                  (organizeEach U envFor total ef l 0 0 st).2) as H.
    cbv zeta in H.
    destruct (organizeOne U envFor total (length l) ef b _ _) as [p' st'].
    simpl in *.
    destruct (moves U envFor (length l) ef b _); destruct H as [-> ->];
      rewrite IH1, IH2; simpl.
    + rewrite Nat.add_1_r, progressTo_snoc, <- (assoc_L (++)). done.
    + by rewrite Nat.add_0_r.
Qed.
End CountProofs.

(** X14: a run of organize-all sends one progress message for each
    bookmark that the loop moves (its classification returns a path of
    strings and [moveBookmark] returns), numbered from 1, and then one
    completion message with the number of bookmarks moved, the number of
    bookmarks found at the start, and the count that the sweep of the
    store left by the loop returns; the store it leaves is the one that
    sweep leaves, and with distinct identifiers the count is the number
    of nodes the sweep took out. *)
Theorem organizeAll_reports_progress U envFor (st : Service) :
  let bs := getAllBookmarks (bookmarks st) in
  let existingFolders := getExistingFolders (bookmarks st) in
  let total := length bs in
  let processed :=
    length (movedPlaces U envFor total existingFolders bs st) in
  let afterLoop :=
    bookmarks (stateBefore U envFor total existingFolders bs st total) in
  let swept := removeEmptyFolders afterLoop in
  let r := organizeAllBookmarks U envFor st in
  sent r = sent st ++ progressTo total 1 processed
           ++ [ORGANIZE_COMPLETE processed total (removedCount swept)]
  ∧ (processed ≤ total)%nat
  ∧ bookmarks r = store swept
  ∧ (NoDup (id <$> bookmarks st) →
     (length (bookmarks r) + removedCount swept)%nat = length afterLoop).
Proof.
  cbv zeta. unfold organizeAllBookmarks, stateBefore.
  rewrite firstn_all.
  destruct (organizeEach_counts U envFor
              (length (getAllBookmarks (bookmarks st)))
              (getExistingFolders (bookmarks st))
              (getAllBookmarks (bookmarks st)) st) as [Hp Hs].
  pose proof (organizeEach_keeps U envFor
                (length (getAllBookmarks (bookmarks st)))
                (getExistingFolders (bookmarks st))
                (getAllBookmarks (bookmarks st)) 0 0 st) as Hk.
  destruct (organizeEach _ _ _ _ _ _ _ _) as [p st1]. simpl in *. subst p.
  split; [by rewrite Hs, <- (assoc_L (++))|]. split.
  { unfold movedPlaces. etrans; [apply length_filter|]. by rewrite length_seq. }
  split; [done|]. intros Hd. destruct (Hk Hd) as [_ Hd1].
  by destruct (removeEmptyFolders_keeps (bookmarks st1) Hd1) as (_ & _ & ?).
Qed.

Lemma organizeAll_reports_progress_witness :
  NoDup (id <$> bookmarks (serviceOn sweepStore))
  ∧ sent (organizeAllBookmarks BasicLatin (λ _, answersProofAssistants)
            (serviceOn sweepStore))
    = [ORGANIZE_PROGRESS 1 1; ORGANIZE_COMPLETE 1 1 1].
Proof.
  split; [exact sweepStore_NoDup|].
  destruct (organizeAll_reports_progress BasicLatin
              (λ _, answersProofAssistants) (serviceOn sweepStore))
    as (Hs & _).
  rewrite Hs. vm_compute. reflexivity.
Defined.

Lemma classifyUrl_noCredential E self w u t ef :
  noCredential E →
  classifyUrl E self w u t ef = (Err notConfigured, loadApiKey E self, w).
Proof.
  intros H. unfold classifyUrl.
  change (apiKey (loadApiKey E self)) with (trim <$> getApiKey E).
  by destruct H as [-> | ->].
Qed.

Lemma organizeEach_noCredential U envFor total ef
    (bs : list BookmarkTreeNode) :
  (∀ k, noCredential (envFor k)) →
  ∀ k p (st : Service),
    let r := organizeEach U envFor total ef bs k p st in
    r.1 = p ∧ bookmarks r.2 = bookmarks st ∧ world r.2 = world st
    ∧ sent r.2 = sent st.
Proof.
  intros Hno. induction bs as [|b rest IH]; intros k p st; simpl; [done|].
  unfold organizeOne. destruct b as [bid bt bu bc].
  rewrite (classifyUrl_noCredential _ _ _ _ _ _ (Hno k)).
  match goal with |- context [organizeEach _ _ _ _ _ _ _ ?st'] =>
    destruct (IH (S k) p st') as (E1 & E2 & E3 & E4) end.
  simpl in *. done.
Qed.

(** X15: without a usable credential organize-all classifies and moves
    nothing and calls no endpoint, yet it still sweeps: the store it
    leaves is the store the empty-folder sweep leaves, and the
    completion message reports 0 processed and the folders removed. *)
Theorem organizeAll_without_credential U envFor (st : Service) :
  (∀ k, noCredential (envFor k)) →
  let r := organizeAllBookmarks U envFor st in
  bookmarks r = store (removeEmptyFolders (bookmarks st))
  ∧ world r = world st
  ∧ sent r = sent st
             ++ [ORGANIZE_COMPLETE 0 (length (getAllBookmarks (bookmarks st)))
                   (removedCount (removeEmptyFolders (bookmarks st)))].
Proof.
  intros Hno. unfold organizeAllBookmarks.
  destruct (organizeEach_noCredential U envFor
              (length (getAllBookmarks (bookmarks st)))
              (getExistingFolders (bookmarks st))
              (getAllBookmarks (bookmarks st)) Hno 0 0 st)
    as (E1 & E2 & E3 & E4).
  destruct (organizeEach _ _ _ _ _ _ _ _) as [p st1]. simpl in *.
  by rewrite E1, E2, E3, E4.
Qed.

Lemma organizeAll_without_credential_witness :
  (∀ k : nat, noCredential (withApiKey (Some (str "  ")) answersProofAssistants))
  ∧ bookmarks (organizeAllBookmarks BasicLatin
                 (λ _, withApiKey (Some (str "  ")) answersProofAssistants)
                 (serviceOn sweepStore))
    = chromeStore
  ∧ sent (organizeAllBookmarks BasicLatin
            (λ _, withApiKey (Some (str "  ")) answersProofAssistants)
            (serviceOn sweepStore))
    = [ORGANIZE_COMPLETE 0 1 1].
Proof.
  assert (∀ k : nat,
            noCredential (withApiKey (Some (str "  ")) answersProofAssistants))
    as Hno by (intros _; right; reflexivity).
  destruct (organizeAll_without_credential BasicLatin
              (λ _, withApiKey (Some (str "  ")) answersProofAssistants)
              (serviceOn sweepStore) Hno) as (Hb & _ & Hs).
  split; [exact Hno|]. split; [rewrite Hb|rewrite Hs]; reflexivity.
Defined.

Lemma organizeAll_keeps_every_bookmark_witness :
  NoDup (id <$> bookmarks (serviceOn sweepStore))
  ∧ bookmarks (organizeAllBookmarks BasicLatin (λ _, answersProofAssistants)
                 (serviceOn sweepStore))
    = emptyProfile ++ [folderNode 7 (Some 1) "Proof assistants";
                       linkNode 5 7 "Rocq" "https://rocq-prover.org/"]
  ∧ keepsBookmarks sweepStore
      (bookmarks (organizeAllBookmarks BasicLatin (λ _, answersProofAssistants)
                    (serviceOn sweepStore))).
Proof.
  split; [exact sweepStore_NoDup|]. split; [vm_compute; reflexivity|].
  exact (proj1 (organizeAll_keeps_every_bookmark BasicLatin
                  (λ _, answersProofAssistants) (serviceOn sweepStore)
                  sweepStore_NoDup)).
Defined.

(** ** The sweep and the bookmarks *)

Lemma bind_one {A B} (f : A → list B) (x : A) : [x] ≫= f = f x.
Proof. rewrite bind_cons. apply app_nil_r. Qed.

Lemma eachChild_spares (l : list BookmarkTreeNode) :
  Forall (λ t, ∀ st, spares [t] (emptyFolderIds t) st (traverseAndRemove t st)) l →
  ∀ h st, ∃ new,
    removeCalls (eachChild l h st).2 = removeCalls st ++ new
    ∧ Forall (λ i, i ∈ l ≫= emptyFolderIds) new
    ∧ ((eachChild l h st).1 = false → h = false ∧ l ≫= collectBookmarks = []).
Proof.
  induction 1 as [|t l Ht _ IH]; intros h st; cbn [eachChild].
  - exists []. rewrite app_nil_r. split; [done|]. split; [constructor|done].
  - destruct (Ht st) as (n1 & E1 & F1 & B1).
    destruct (traverseAndRemove t st) as [r st']. cbn [fst snd] in *.
    destruct (IH (if r then h else true) st') as (n2 & E2 & F2 & B2).
    exists (n1 ++ n2). rewrite E2, E1, (assoc_L (++)). split; [done|].
    rewrite !bind_cons. split.
    + apply Forall_app. split.
      * eapply Forall_impl; [exact F1|]. intros i Hi. apply elem_of_app. by left.
      * eapply Forall_impl; [exact F2|]. intros i Hi. apply elem_of_app. by right.
    + intros Hf. destruct (B2 Hf) as [Hh Hl]. destruct r; [|done].
      split; [done|]. specialize (B1 eq_refl).
      rewrite bind_one in B1. by rewrite B1, Hl.
Qed.

Lemma traverseAndRemove_spares (t : BookmarkTreeNode) :
  ∀ st, spares [t] (emptyFolderIds t) st (traverseAndRemove t st).
Proof.
  induction t as [i t u c IH] using tree_induction. intros st.
  unfold spares. rewrite bind_one.
  rewrite traverseAndRemove_eq.
  destruct (has_url u) eqn:Hu.
  { exists []. rewrite app_nil_r. split; [done|]. split; [constructor|done]. }
  assert (∃ new,
    removeCalls (visitChildren c st).2 = removeCalls st ++ new
    ∧ Forall (λ i, i ∈ default [] c ≫= emptyFolderIds) new
    ∧ ((visitChildren c st).1 = false → default [] c ≫= collectBookmarks = []))
    as (n1 & E1 & F1 & B1).
  { destruct c as [[|x l]|]; unfold visitChildren;
      try (exists []; rewrite app_nil_r; split; [done|];
           split; [constructor|done]).
    destruct (eachChild_spares (x :: l) IH false st) as (n1 & E1 & F1 & B1).
    exists n1. split; [done|]. split; [done|]. intros Hf. by apply B1. }
  assert (collectBookmarks (TreeNode i t u c) = default [] c ≫= collectBookmarks)
    as Hcol.
  { simpl. rewrite Hu. by destruct c. }
  assert (∀ j, j ∈ default [] c ≫= emptyFolderIds →
               j ∈ emptyFolderIds (TreeNode i t u c)) as Hsub.
  { intros j Hj. simpl. apply elem_of_app. right. by destruct c. }
  destruct (visitChildren c st) as [h st1]. cbn [fst snd] in *.
  destruct h; cbn [negb andb fst snd].
  - exists n1. split; [done|]. split; [|done].
    eapply Forall_impl; [exact F1|]. apply Hsub.
  - specialize (B1 eq_refl).
    destruct (isSystemId i); cbn [negb andb fst snd].
    + exists n1. split; [done|]. split; [|by rewrite Hcol].
      eapply Forall_impl; [exact F1|]. apply Hsub.
    + assert (removeCalls (tryRemove i st1).2 = removeCalls st1 ++ [i]) as Et.
      { unfold tryRemove. by destruct (remove (store st1) i). }
      exists (n1 ++ [i]). rewrite Et, E1, (assoc_L (++)). split; [done|].
      split; [|by rewrite Hcol].
      apply Forall_app. split.
      * eapply Forall_impl; [exact F1|]. apply Hsub.
      * constructor; [|constructor]. cbn [emptyFolderIds]. rewrite Hu.
        rewrite Hcol, B1. apply elem_of_app. left. constructor.
Qed.

(** X16: the sweep asks for the deletion only of folders that hold no
    bookmark at any depth: every identifier a visit calls [remove] with
    is a folder of the snapshot without a node with a url below it, and
    a visit answers "empty" only for a snapshot without such a node. *)
Theorem sweep_spares_folders_with_bookmarks (t : BookmarkTreeNode) (st : Sweep) :
  ∃ new,
    removeCalls (traverseAndRemove t st).2 = removeCalls st ++ new
    ∧ Forall (λ i, i ∈ emptyFolderIds t) new
    ∧ (if (traverseAndRemove t st).1 then collectBookmarks t = [] else True).
Proof.
  destruct (traverseAndRemove_spares t st) as (new & E & F & B).
  exists new. split; [done|]. split; [done|].
  destruct (traverseAndRemove t st).1; [|done].
  specialize (B eq_refl). by rewrite bind_one in B.
Qed.

(** ** More on the classifier *)

Lemma translate_Error e : ∃ m, translate e = Error m.
Proof.
  destruct e as [status m|m|m|]; unfold translate; repeat case_bool_decide; eauto.
Qed.

(** X17: [classifyUrl] never passes on an [APIError] or a value that is
    no [Error]: what it throws is an [Error] it made itself, with a
    message, with one exception.  When the provider is GitHub Copilot
    and the token exchange is answered without a token, the
    [OpenAIError] of the client constructor, which runs before the
    [try], goes out as it is, before any request; a credential with the
    prefix of GitHub shows it. *)
Theorem classifyUrl_translates_failures :
  (∀ E self w u t ef,
     let res := classifyUrl E self w u t ef in
     match res.1.1 with
     | Ok _ => True
     | Err e =>
         (∃ m, e = Error m)
         ∨ (e = OpenAIError (missingApiKeyMessage E)
            ∧ res.2 = w
            ∧ ∃ key,
                trim <$> getApiKey E = Some key
                ∧ isCopilot (resolveProvider
                               (loadPreferences E (loadApiKey E self) w) key)
                  = true
                ∧ copilotToken E key = None
                ∧ copilotTokenUndefined E key = true)
     end)
  ∧ classifyUrl copilotWithoutToken freshFields freshWorld rocqUrl rocqTitle []
    = (Err (OpenAIError (str "Missing credentials")),
       loadPreferences copilotWithoutToken
         (loadApiKey copilotWithoutToken freshFields) freshWorld,
       freshWorld).
Proof.
  split; [|vm_compute; reflexivity].
  intros E self w u t ef. unfold classifyUrl.
  change (apiKey (loadApiKey E self)) with (trim <$> getApiKey E).
  destruct (trim <$> getApiKey E) as [[|k0 key]|] eqn:Hkey; simpl; eauto.
  destruct (isCopilot _) eqn:Hcop.
  2:{ destruct (requestPhase _ _ _ _ _ _) as [[result|e] w']; simpl;
        [|left; apply translate_Error].
      destruct (parseResponse E result); simpl; [done|left; apply translate_Error]. }
  destruct (copilotToken E (k0 :: key)) as [actual|] eqn:Htok; simpl.
  - destruct (requestPhase _ _ _ _ _ _) as [[result|e] w']; simpl;
      [|left; apply translate_Error].
    destruct (parseResponse E result); simpl; [done|left; apply translate_Error].
  - destruct (copilotTokenUndefined E (k0 :: key)) eqn:Hund; simpl; [|eauto].
    right. split; [done|]. split; [done|]. exists (k0 :: key). done.
Qed.

(** X18: a call issues at most two completion requests, after those issued
    before; each carries the stored credential trimmed (for GitHub
    Copilot the token it was exchanged for), the prompt of this call, a
    limit of 300 tokens and the temperature 0.2; without a credential to
    send there is no request. *)
Theorem classifyUrl_requests_bounded E self w u t ef :
  let res := classifyUrl E self w u t ef in
  ∃ new,
    requests res.2 = requests w ++ new
    ∧ (length new ≤ 2)%nat
    ∧ Forall (λ r, credentialSent E self w = Some (r_apiKey r)
                   ∧ r_prompt r = {| p_url := u; p_title := t;
                                     p_existingFoldersList := existingFoldersList ef |}
                   ∧ r_max_tokens r = 300 ∧ r_temperature r = 2 # 10) new
    ∧ (credentialSent E self w = None → new = []).
Proof.
  unfold classifyUrl, credentialSent.
  change (apiKey (loadApiKey E self)) with (trim <$> getApiKey E).
  destruct (trim <$> getApiKey E) as [[|k0 key]|]; simpl.
  1,3: exists []; rewrite app_nil_r; repeat split; auto; constructor.
  destruct (if isCopilot _ then _ else _) as [actual|] eqn:Htok; simpl.
  2:{ exists []. destruct (copilotTokenUndefined E (k0 :: key)); simpl;
        rewrite app_nil_r; repeat split; auto; constructor. }
  unfold requestPhase, attemptClassification.
  destruct (complete E _ (length (requests w))) as [c|e]; simpl.
  { destruct (parseResponse E (contentOrEmpty c)); simpl;
      (eexists [_]; split; [reflexivity|]; split; [simpl; lia|]; split; [|done];
       repeat constructor). }
  destruct (bool_decide (name _ = Some (str "OpenRouter"))); simpl.
  2:{ eexists [_]. split; [reflexivity|]. split; [simpl; lia|]. split; [|done].
      repeat constructor. }
  destruct (is404 e); simpl.
  2:{ eexists [_]. split; [reflexivity|]. split; [simpl; lia|]. split; [|done].
      repeat constructor. }
  destruct (truthyStr (chooseDefaultOpenRouterModel E (k0 :: key))); simpl.
  2:{ eexists [_]. split; [reflexivity|]. split; [simpl; lia|]. split; [|done].
      repeat constructor. }
  destruct (complete E _ _) as [c2|e2]; simpl.
  { destruct (parseResponse E (contentOrEmpty c2)); simpl;
      (eexists [_; _]; rewrite <- (assoc_L (++)); split; [reflexivity|];
       split; [simpl; lia|]; split; [|done]; repeat constructor). }
  eexists [_; _]. rewrite <- (assoc_L (++)). split; [reflexivity|].
  split; [simpl; lia|]. split; [|done]. repeat constructor.
Qed.

(** X19: only a 404 of OpenRouter is tried again.  When the provider of
    the call is not OpenRouter, or its first completion does not fail
    with status 404, the call issues at most one request and leaves the
    persisted model choice alone. *)
Theorem classifyUrl_retries_only_openrouter_404 E self w u t ef :
  (∀ key, trim <$> getApiKey E = Some key →
     name (resolveProvider (loadPreferences E (loadApiKey E self) w) key)
       ≠ Some (str "OpenRouter")
     ∨ ∀ r, outcomeIs404 (complete E r (length (requests w))) = false) →
  let res := classifyUrl E self w u t ef in
  (length (requests res.2) ≤ S (length (requests w)))%nat
  ∧ persistedModel res.2 = persistedModel w.
Proof.
  intros H. unfold classifyUrl.
  change (apiKey (loadApiKey E self)) with (trim <$> getApiKey E).
  destruct (trim <$> getApiKey E) as [[|k0 key]|] eqn:Hkey; simpl;
    [split; [lia|done]| |split; [lia|done]].
  specialize (H _ eq_refl).
  destruct (if isCopilot _ then _ else _) as [actual|]; simpl;
    [|destruct (copilotTokenUndefined E (k0 :: key)); simpl; split; [lia|done|lia|done]].
  unfold requestPhase, attemptClassification.
  destruct (complete E _ (length (requests w))) as [c|e] eqn:Hout; simpl.
  { destruct (parseResponse E (contentOrEmpty c)); simpl;
      rewrite length_app; simpl; split; [lia|done|lia|done]. }
  assert (bool_decide
            (name (resolveProvider (loadPreferences E (loadApiKey E self) w)
                     (k0 :: key)) = Some (str "OpenRouter"))
          && is404 e = false) as ->.
  { destruct H as [H|H].
    - by rewrite (bool_decide_eq_false_2 _ H).
    - specialize (H (mkRequest actual
          (resolveProvider (loadPreferences E (loadApiKey E self) w) (k0 :: key))
          {| p_url := u; p_title := t;
             p_existingFoldersList := existingFoldersList ef |})).
      rewrite Hout in H. simpl in H. rewrite H. apply andb_false_r. }
  simpl. rewrite length_app. simpl. split; [lia|done].
Qed.

Lemma classifyUrl_retries_only_openrouter_404_witness :
  let res := classifyUrl openaiNotFound freshFields freshWorld rocqUrl rocqTitle [] in
  (length (requests res.2) ≤ S (length (requests freshWorld)))%nat
  ∧ persistedModel res.2 = persistedModel freshWorld.
Proof.
  apply (classifyUrl_retries_only_openrouter_404
           openaiNotFound freshFields freshWorld rocqUrl rocqTitle []).
  intros key Hkey. left. injection Hkey as <-. vm_compute. discriminate.
Defined.

(** X20: a stored provider preference that names one of the six providers
    decides the provider, whatever the credential looks like: the call
    uses the name and the endpoint of that entry, and its model too
    unless the entry is OpenRouter. *)
Theorem preference_overrides_detection E self w key k p :
  getProviderPreference E = Some (Some k) → (k, p) ∈ providers →
  let q := resolveProvider (loadPreferences E (loadApiKey E self) w) key in
  name q = name p ∧ baseURL q = baseURL p
  ∧ (name p ≠ Some (str "OpenRouter") → q = p).
Proof.
  intros Hpref Hin. unfold loadPreferences. rewrite Hpref.
  unfold resolveProvider. cbn [providerOverride selectedOpenRouterModel].
  unfold providers in Hin.
  repeat (apply elem_of_cons in Hin as [Hin|Hin];
          [injection Hin as -> ->|]);
    [..|by apply elem_of_nil in Hin];
    cbn [truthyStr str mbind option_bind];
    try (split; [|split]; [reflexivity..|by intros _]).
  change (providersGet (str "openrouter")) with (Some openrouter).
  cbv iota beta.
  rewrite (bool_decide_eq_true_2 (name openrouter = Some (str "OpenRouter")) eq_refl).
  cbn [andb]. destruct (truthyStr _); (split; [|split]; [reflexivity..|done]).
Qed.

Lemma preference_overrides_detection_witness :
  let E := {| getApiKey := Some xaiKey;
              getProviderPreference := Some (Some (str "grok"));
              selectedModelRejects := false;
              chooseDefaultOpenRouterModel := fun _ => None;
              copilotToken := fun _ => None;
              copilotTokenUndefined := fun _ => false;
              missingApiKeyMessage := str "Missing credentials";
              complete := fun _ _ => notFound;
              JSON_parse := fun _ => inr (str "Unexpected end of JSON input");
              nullReadMessage := str "Cannot read properties of null" |} in
  let q := resolveProvider (loadPreferences E (loadApiKey E freshFields) freshWorld)
             xaiKey in
  name q = name grok ∧ baseURL q = baseURL grok
  ∧ (name grok ≠ Some (str "OpenRouter") → q = grok).
Proof.
  intros E.
  apply (preference_overrides_detection E freshFields freshWorld xaiKey
           (str "grok") grok); [reflexivity|].
  unfold providers. do 2 apply list_elem_of_further. apply list_elem_of_here.
Defined.

(** X21: detection yields Grok only for a credential of at most 40 UTF-16
    units that contains "grok" or starts with "xai-". *)
Theorem detect_grok_needs_short_key key :
  detectProvider key = grok →
  js_length key ≤ 40
  ∧ (includes key (str "grok") = true ∨ startsWith key (str "xai-") = true).
Proof.
  unfold detectProvider.
  destruct (startsWith key (str "gho_") || startsWith key (str "github_pat_"));
    [discriminate|].
  destruct (startsWith key (str "gsk_")); [discriminate|].
  destruct (startsWith key (str "sk-") && negb (includes key (str "kimi"))
            && negb (includes key (str "or-v1"))); [discriminate|].
  destruct (startsWith key (str "sk-or-v1-") || includes key (str "openrouter"));
    [discriminate|].
  destruct (includes key (str "kimi")); [discriminate|]. cbn [orb].
  destruct (40 <? js_length key) eqn:Hlen; [discriminate|].
  apply N.ltb_ge in Hlen.
  destruct (includes key (str "grok")); [split; [exact Hlen|by left]|].
  destruct (startsWith key (str "xai-")); [split; [exact Hlen|by right]|discriminate].
Qed.

Lemma detect_grok_needs_short_key_witness :
  js_length (str "xai-0123456789") ≤ 40
  ∧ (includes (str "xai-0123456789") (str "grok") = true
     ∨ startsWith (str "xai-0123456789") (str "xai-") = true).
Proof.
  apply (detect_grok_needs_short_key (str "xai-0123456789")). reflexivity.
Defined.

Lemma fenceMatch_plain c (r : jstring) :
  c ≠ 96 → head r ≠ Some 96 → fenceMatch (c :: r) = None.
Proof.
  intros Hc Hr. unfold fenceMatch.
  change fence_json with [96; 96; 96; 106; 115; 111; 110].
  change fence with [96; 96; 96].
  cbn [startsWith].
  assert ((c =? 96) = false) as Hc' by by apply N.eqb_neq.
  rewrite Hc'. cbn [andb].
  destruct r as [|d r]; [by rewrite andb_false_r|].
  assert ((d =? 96) = false) as Hd'.
  { apply N.eqb_neq. intros ->. by apply Hr. }
  cbn [startsWith]. rewrite Hd'. cbn [andb]. by rewrite andb_false_r.
Qed.

Lemma stripFences_plain (s : jstring) : 96 ∉ s → stripFences 0 s = s.
Proof.
  induction s as [|c r IH]; intros H; [done|].
  apply not_elem_of_cons in H as [Hc Hr].
  cbn [stripFences]. rewrite fenceMatch_plain; [by rewrite IH|done|].
  destruct r as [|d r]; [done|]. simpl. intros [= ->].
  apply Hr. apply list_elem_of_here.
Qed.

Lemma stripFences_closing (body : jstring) :
  96 ∉ body → stripFences 0 (body ++ 10 :: fence) = body.
Proof.
  induction body as [|c r IH]; intros H; [reflexivity|].
  apply not_elem_of_cons in H as [Hc Hr].
  change ((c :: r) ++ 10 :: fence) with (c :: (r ++ 10 :: fence)).
  cbn [stripFences]. rewrite fenceMatch_plain; [by rewrite IH|done|].
  destruct r as [|d r]; [simpl; discriminate|]. simpl. intros [= ->].
  apply Hr. apply list_elem_of_here.
Qed.

(** X22: a response wrapped in a json code fence is read as the same
    response without the fence, when the text inside holds no
    backtick. *)
Theorem parseResponse_ignores_fence E (body : jstring) :
  body ≠ [] → 96 ∉ body →
  parseResponse E (fence_json ++ 10 :: body ++ 10 :: fence)
  = parseResponse E body.
Proof.
  intros Hne H. destruct body as [|c r]; [done|].
  unfold parseResponse.
  change (fence_json ++ 10 :: (c :: r) ++ 10 :: fence)
    with (96 :: 96 :: 96 :: 106 :: 115 :: 111 :: 110 :: 10
          :: ((c :: r) ++ 10 :: fence)).
  cbv iota beta.
  assert (stripFences 0 (96 :: 96 :: 96 :: 106 :: 115 :: 111 :: 110 :: 10
                         :: ((c :: r) ++ 10 :: fence))
          = stripFences 0 ((c :: r) ++ 10 :: fence)) as -> by reflexivity.
  by rewrite stripFences_closing, stripFences_plain.
Qed.

Lemma parseResponse_ignores_fence_witness :
  parseResponse answersFiveLevels
    (fence_json ++ 10 :: fiveLevelsJson ++ 10 :: fence)
  = parseResponse answersFiveLevels fiveLevelsJson.
Proof.
  apply (parseResponse_ignores_fence answersFiveLevels fiveLevelsJson).
  - discriminate.
  - apply (bool_decide_unpack (96 ∉ fiveLevelsJson)). vm_compute. exact I.
Defined.
